(** * gocommerce: the price calculation engine ([calculator/calculator.go])

    A shallow embedding of [CalculatePrice] and of the helpers it calls,
    followed by the properties of the engine.

    - [uint64] values are integers of [Z]; every addition, subtraction and
      multiplication of the source is followed by its reduction modulo 2^64.
    - [float64] values are IEEE 754 binary64 numbers, given by the Standard
      Library's executable specification [SpecFloat] at precision 53 and
      maximal exponent 1024 (rounding to nearest, ties to even).
    - Go strings are [string]; Go maps are [gmap]s; slices are lists (a nil
      slice and an empty one are ranged over alike, and every place where the
      source tells them apart tests [len] as well).  The pointers held by
      [Settings.Taxes], [Settings.MemberDiscounts] and
      [MemberDiscount.FixedAmount] are taken to be non-nil, and so are the
      items: the source dereferences them without a test.
    - A nil [*Settings], a nil claims map and a nil [Coupon] are [None]. *)

From Stdlib Require Import ZArith List Ascii String Bool Lia SpecFloat.
From stdpp Require Import base gmap strings.

Import ListNotations.
Local Open Scope Z_scope.

(** ** Unsigned 64-bit arithmetic *)

Module U64.

Definition modulus : Z := 2 ^ 64.

Definition wrap (z : Z) : Z := z mod modulus.

Definition add (a b : Z) : Z := wrap (a + b).
Definition sub (a b : Z) : Z := wrap (a - b).
Definition mul (a b : Z) : Z := wrap (a * b).

End U64.

(** ** binary64 floating point *)

Module F64.

Definition float64 : Type := spec_float.

Definition prec : Z := 53.
Definition emax : Z := 1024.

Definition add : float64 -> float64 -> float64 := SFadd prec emax.
Definition sub : float64 -> float64 -> float64 := SFsub prec emax.
Definition mul : float64 -> float64 -> float64 := SFmul prec emax.
Definition div : float64 -> float64 -> float64 := SFdiv prec emax.
Definition ltb : float64 -> float64 -> bool := SFltb.
Definition eqb : float64 -> float64 -> bool := SFeqb.

(** [float64(n)] for an unsigned integer [n]: the nearest binary64 number. *)
Definition of_uint64 (n : Z) : float64 := binary_normalize prec emax n 0 false.

(** The constants the source writes: [0.0], [0.5] = 2^52 * 2^-53, [-0.5],
    [1.0] = 2^52 * 2^-52 and [100] = (25 * 2^48) * 2^-46. *)
Definition zero : float64 := S754_zero false.
Definition half : float64 := S754_finite false 4503599627370496 (-53).
Definition neg_half : float64 := S754_finite true 4503599627370496 (-53).
Definition one : float64 := S754_finite false 4503599627370496 (-52).
Definition hundred : float64 := S754_finite false 7036874417766400 (-46).

(** The integer a finite number truncates to (towards zero). *)
Definition trunc (x : float64) : option Z :=
  match x with
  | S754_zero _ => Some 0
  | S754_finite s m e => Some (cond_Zopp s (Z.shiftl (Z.pos m) e))
  | S754_infinity _ | S754_nan => None
  end.

(** [math.Modf]: the integer part and the fractional part, both with the sign
    of the argument.  The integer part keeps the exponent and clears the
    mantissa bits below the binary point; the fractional part is the
    difference.  [Modf(±Inf) = ±Inf, NaN] and [Modf(NaN) = NaN, NaN]. *)
Definition Modf (f : float64) : float64 * float64 :=
  match f with
  | S754_zero _ => (f, f)
  | S754_finite s m e =>
      let int :=
        if 0 <=? e then f
        else match Z.shiftl (Z.shiftr (Z.pos m) (- e)) (- e) with
             | Z.pos p => S754_finite s p e
             | _ => S754_zero s
             end in
      (int, sub f int)
  | S754_infinity _ | S754_nan => (f, sub f f)
  end.

End F64.

Abbreviation float64 := F64.float64.

(** ** What the Go implementation leaves open

    [strconv.ParseFloat] belongs to Go's library; the calculator drops its
    error and keeps the number.  Converting a [float64] whose truncation is
    not a [uint64] (negative, 2^64 or more, infinite, NaN) succeeds with an
    implementation-dependent value. *)

Class GoRuntime : Type := {
  ParseFloat : string -> float64;
  uint64_unrepresentable : float64 -> Z
}.

(** [uint64(f)] *)
Definition uint64_of_float `{GoRuntime} (f : float64) : Z :=
  match F64.trunc f with
  | Some z => if (0 <=? z) && (z <? U64.modulus) then z
              else U64.wrap (uint64_unrepresentable f)
  | None => U64.wrap (uint64_unrepresentable f)
  end.

(** [rint] (calculator.go, lines 242-255) *)
Definition rint `{GoRuntime} (x : float64) : Z :=
  let '(v, frac) := F64.Modf x in
  let v :=
    if F64.ltb F64.zero x then
      if F64.ltb F64.half frac
         || (F64.eqb frac F64.half && negb (uint64_of_float v mod 2 =? 0))
      then F64.add v F64.one else v
    else
      if F64.ltb frac F64.neg_half
         || (F64.eqb frac F64.neg_half && negb (uint64_of_float v mod 2 =? 0))
      then F64.sub v F64.one else v in
  uint64_of_float v.

(** ** Data model (calculator.go, lines 10-108) *)

Module ItemPrice.
Record t : Type := mk {
  Quantity : Z;
  Subtotal : Z;
  Discount : Z;
  Taxes : Z;
  Total : Z
}.
End ItemPrice.

Module Price.
Record t : Type := mk {
  Items : list ItemPrice.t;
  Subtotal : Z;
  Discount : Z;
  Taxes : Z;
  Total : Z
}.
End Price.

(** [for _, x := range l { if x == s { ...; break } }] *)
Definition contains (l : list string) (s : string) : bool :=
  existsb (fun x => String.eqb x s) l.

Module Tax.
Record t : Type := mk {
  Percentage : Z;
  ProductTypes : list string;
  Countries : list string
}.

(** [Tax.AppliesTo] (lines 125-149) *)
Definition AppliesTo (t : t) (country productType : string) : bool :=
  let applies :=
    match ProductTypes t with
    | [] => true
    | _ :: _ => contains (ProductTypes t) productType
    end in
  if negb applies then false
  else match Countries t with
       | [] => applies
       | _ :: _ => contains (Countries t) country
       end.
End Tax.

Record taxAmount : Type := { price : Z; percentage : Z }.

Record FixedMemberDiscount : Type := { Amount : string; Currency : string }.

Module MemberDiscount.
Record t : Type := mk {
  Claims : gmap string string;
  Percentage : Z;
  FixedAmount : list FixedMemberDiscount;
  ProductTypes : list string;
  Products : list string
}.

(** [MemberDiscount.ValidForType] (lines 66-76) *)
Definition ValidForType (d : t) (productType : string) : bool :=
  match ProductTypes d with
  | [] => true
  | _ :: _ => contains (ProductTypes d) productType
  end.

(** [MemberDiscount.ValidForProduct] (lines 79-89) *)
Definition ValidForProduct (d : t) (productSku : string) : bool :=
  match Products d with
  | [] => true
  | _ :: _ => contains (Products d) productSku
  end.

(** [MemberDiscount.FixedDiscount] (lines 111-122): the first entry in the
    wanted currency decides. *)
Fixpoint fixedDiscountIn `{GoRuntime} (l : list FixedMemberDiscount)
    (currency : string) : Z :=
  match l with
  | [] => 0
  | discount :: rest =>
      if String.eqb (Currency discount) currency
      then rint (F64.mul (ParseFloat (Amount discount)) F64.hundred)
      else fixedDiscountIn rest currency
  end.

Definition FixedDiscount `{GoRuntime} (d : t) (currency : string) : Z :=
  fixedDiscountIn (FixedAmount d) currency.
End MemberDiscount.

Module Settings.
Record t : Type := mk {
  PricesIncludeTaxes : bool;
  Taxes : list Tax.t;
  MemberDiscounts : list MemberDiscount.t
}.
End Settings.

(** The [Item] interface (lines 92-99), as the values its methods return. *)
#[warnings="-register-all"]
Inductive Item : Type := mkItem {
  ProductSku : string;
  PriceInLowestUnit : Z;
  ProductType : string;
  FixedVAT : Z;
  TaxableItems : list Item;
  GetQuantity : Z
}.

(** The [Coupon] interface (lines 102-108). *)
Module Coupon.
Record t : Type := mk {
  ValidForType : string -> bool;
  ValidForPrice : string -> Z -> bool;
  ValidForProduct : string -> bool;
  PercentageDiscount : Z;
  FixedDiscount : string -> Z
}.
End Coupon.

(** A claim value is an [interface{}] holding a decoded JSON value. *)
Inductive ClaimValue : Type :=
  | ClaimString (s : string)
  | ClaimNumber (n : Z)
  | ClaimBool (b : bool)
  | ClaimNull.

Module claims.
(** Modelled from the spec: [claims.HasClaims], whose package is not among
    the sources.  The required claims are "a mapping of claim-name to
    claim-value that the invoking user's authentication claims must satisfy
    (all must match)". *)
Definition HasClaims (userClaims : gmap string ClaimValue)
    (requiredClaims : gmap string string) : bool :=
  forallb
    (fun kv => match userClaims !! fst kv with
               | Some (ClaimString s) => String.eqb s (snd kv)
               | _ => false
               end)
    (map_to_list requiredClaims).
End claims.

(** ** The calculation (calculator.go, lines 153-238) *)

(** [calculateDiscount] (lines 224-238) *)
Definition calculateDiscount `{GoRuntime}
    (amountToDiscount taxes percentage fixed : Z) (includeTaxes : bool) : Z :=
  let amountToDiscount :=
    if includeTaxes then U64.add amountToDiscount taxes else amountToDiscount in
  let discount :=
    if 0 <? percentage
    then rint (F64.div (F64.mul (F64.of_uint64 amountToDiscount)
                                (F64.of_uint64 percentage)) F64.hundred)
    else 0 in
  let discount := U64.add discount fixed in
  if amountToDiscount <? discount then amountToDiscount else discount.

(** The loop [for _, t := range settings.Taxes] that stops at the first rule
    for which [AppliesTo] holds (lines 166-171 and 175-180). *)
Fixpoint firstApplicable (taxes : list Tax.t) (country productType : string)
    : option Tax.t :=
  match taxes with
  | [] => None
  | t :: rest =>
      if Tax.AppliesTo t country productType then Some t
      else firstApplicable rest country productType
  end.

(** Lines 160-181: the taxable amounts of one item. *)
Definition taxAmountsOf (settings : option Settings.t) (country : string)
    (item : Item) : list taxAmount :=
  if negb (FixedVAT item =? 0) then
    [ {| price := PriceInLowestUnit item; percentage := FixedVAT item |} ]
  else
    match settings with
    | None => []
    | Some s =>
        match TaxableItems item with
        | _ :: _ =>
            map (fun sub =>
                   {| price := PriceInLowestUnit sub;
                      percentage :=
                        match firstApplicable (Settings.Taxes s) country
                                (ProductType sub) with
                        | Some t => Tax.Percentage t
                        | None => 0
                        end |})
                (TaxableItems item)
        | [] =>
            match firstApplicable (Settings.Taxes s) country
                    (ProductType item) with
            | Some t => [ {| price := PriceInLowestUnit item;
                             percentage := Tax.Percentage t |} ]
            | None => []
            end
        end
    end.

(** Lines 187-193: one turn of the loop over the taxable amounts, on the
    pair (Subtotal, Taxes) of the item price. *)
Definition addTax `{GoRuntime} (includeTaxes : bool) (acc : Z * Z)
    (tax : taxAmount) : Z * Z :=
  let '(subtotal, taxes) := acc in
  let tax_price :=
    if includeTaxes
    then rint (F64.mul (F64.div (F64.of_uint64 (price tax))
                          (F64.add F64.hundred (F64.of_uint64 (percentage tax))))
                 F64.hundred)
    else price tax in
  let subtotal := if includeTaxes then U64.add subtotal tax_price else subtotal in
  (subtotal,
   U64.add taxes
     (rint (F64.div (F64.mul (F64.of_uint64 tax_price)
                       (F64.of_uint64 (percentage tax))) F64.hundred))).

(** Lines 183-194 *)
Definition applyTaxes `{GoRuntime} (includeTaxes : bool) (subtotal : Z)
    (taxAmounts : list taxAmount) : Z * Z :=
  match taxAmounts with
  | [] => (subtotal, 0)
  | _ :: _ =>
      fold_left (addTax includeTaxes) taxAmounts
        (if includeTaxes then 0 else subtotal, 0)
  end.

(** Lines 195-197 *)
Definition couponDiscount `{GoRuntime} (coupon : option Coupon.t)
    (currency : string) (item : Item) (subtotal taxes : Z)
    (includeTaxes : bool) : Z :=
  match coupon with
  | Some c =>
      if Coupon.ValidForType c (ProductType item)
         && Coupon.ValidForProduct c (ProductSku item)
      then calculateDiscount subtotal taxes (Coupon.PercentageDiscount c)
             (Coupon.FixedDiscount c currency) includeTaxes
      else 0
  | None => 0
  end.

(** The condition of line 200 *)
Definition memberDiscountApplies (jwtClaims : option (gmap string ClaimValue))
    (discount : MemberDiscount.t) (item : Item) : bool :=
  match jwtClaims with
  | Some c =>
      claims.HasClaims c (MemberDiscount.Claims discount)
      && MemberDiscount.ValidForType discount (ProductType item)
  | None => false
  end.

(** Lines 198-204 *)
Definition addMemberDiscounts `{GoRuntime} (settings : option Settings.t)
    (jwtClaims : option (gmap string ClaimValue)) (currency : string)
    (item : Item) (subtotal taxes : Z) (includeTaxes : bool) (discount0 : Z)
    : Z :=
  match settings with
  | Some s =>
      fold_left
        (fun acc discount =>
           if memberDiscountApplies jwtClaims discount item
           then U64.add acc
                  (calculateDiscount subtotal taxes
                     (MemberDiscount.Percentage discount)
                     (MemberDiscount.FixedDiscount discount currency)
                     includeTaxes)
           else acc)
        (Settings.MemberDiscounts s) discount0
  | None => discount0
  end.

(** Lines 155 *)
Definition includeTaxesOf (settings : option Settings.t) : bool :=
  match settings with
  | Some s => Settings.PricesIncludeTaxes s
  | None => false
  end.

(** Lines 157-209: the price of one line item. *)
Definition itemPriceOf `{GoRuntime} (settings : option Settings.t)
    (jwtClaims : option (gmap string ClaimValue)) (country currency : string)
    (coupon : option Coupon.t) (item : Item) : ItemPrice.t :=
  let includeTaxes := includeTaxesOf settings in
  let '(subtotal, taxes) :=
    applyTaxes includeTaxes (PriceInLowestUnit item)
      (taxAmountsOf settings country item) in
  let discount :=
    couponDiscount coupon currency item subtotal taxes includeTaxes in
  let discount :=
    addMemberDiscounts settings jwtClaims currency item subtotal taxes
      includeTaxes discount in
  let total := U64.add (U64.sub subtotal discount) taxes in
  let total := if total <? 0 then 0 else total in
  {| ItemPrice.Quantity := GetQuantity item;
     ItemPrice.Subtotal := subtotal;
     ItemPrice.Discount := discount;
     ItemPrice.Taxes := taxes;
     ItemPrice.Total := total |}.

(** Lines 211-216: an item price joins the order. *)
Definition addItemPrice (price : Price.t) (itemPrice : ItemPrice.t) : Price.t :=
  {| Price.Items := Price.Items price ++ [itemPrice];
     Price.Subtotal :=
       U64.add (Price.Subtotal price)
         (U64.mul (ItemPrice.Subtotal itemPrice) (ItemPrice.Quantity itemPrice));
     Price.Discount :=
       U64.add (Price.Discount price)
         (U64.mul (ItemPrice.Discount itemPrice) (ItemPrice.Quantity itemPrice));
     Price.Taxes :=
       U64.add (Price.Taxes price)
         (U64.mul (ItemPrice.Taxes itemPrice) (ItemPrice.Quantity itemPrice));
     Price.Total :=
       U64.add (Price.Total price)
         (U64.mul (ItemPrice.Total itemPrice) (ItemPrice.Quantity itemPrice)) |}.

(** [Price{}] *)
Definition emptyPrice : Price.t :=
  {| Price.Items := []; Price.Subtotal := 0; Price.Discount := 0;
     Price.Taxes := 0; Price.Total := 0 |}.

(** [CalculatePrice] (lines 153-222) *)
Definition CalculatePrice `{GoRuntime} (settings : option Settings.t)
    (jwtClaims : option (gmap string ClaimValue)) (country currency : string)
    (coupon : option Coupon.t) (items : list Item) : Price.t :=
  let price :=
    fold_left
      (fun price item =>
         addItemPrice price
           (itemPriceOf settings jwtClaims country currency coupon item))
      items emptyPrice in
  {| Price.Items := Price.Items price;
     Price.Subtotal := Price.Subtotal price;
     Price.Discount := Price.Discount price;
     Price.Taxes := Price.Taxes price;
     Price.Total :=
       U64.add (U64.sub (Price.Subtotal price) (Price.Discount price))
         (Price.Taxes price) |}.

(** ** Reading the results *)

Definition sumZ (l : list Z) : Z := fold_right Z.add 0 l.

(** The sum over the items of a field times the quantity. *)
Definition weighted (field : ItemPrice.t -> Z) (l : list ItemPrice.t) : Z :=
  sumZ (map (fun ip => field ip * ItemPrice.Quantity ip) l).

(** What the loop of [CalculatePrice] has built after any number of turns. *)
Definition consistent (p : Price.t) : Prop :=
  Price.Subtotal p = U64.wrap (weighted ItemPrice.Subtotal (Price.Items p))
  /\ Price.Discount p = U64.wrap (weighted ItemPrice.Discount (Price.Items p))
  /\ Price.Taxes p = U64.wrap (weighted ItemPrice.Taxes (Price.Items p)).

(** Round-half-to-even of the dyadic rational [m * 2^e], [0 <= m]: the
    nearest integer, and the even one of the two when both are as near. *)
Definition roundHalfEven (m e : Z) : Z :=
  if 0 <=? e then m * 2 ^ e
  else
    let d := 2 ^ (- e) in
    let q := m / d in
    match 2 * (m mod d) ?= d with
    | Lt => q
    | Gt => q + 1
    | Eq => if Z.even q then q else q + 1
    end.

(** Member discount eligibility, in the words of the specification. *)
Definition satisfiesAll (userClaims : gmap string ClaimValue)
    (required : gmap string string) : Prop :=
  forall k v, required !! k = Some v -> userClaims !! k = Some (ClaimString v).

Definition typeAccepted (allowList : list string) (productType : string) : Prop :=
  allowList = [] \/ In productType allowList.

Definition eligible (jwtClaims : option (gmap string ClaimValue))
    (d : MemberDiscount.t) (item : Item) : Prop :=
  exists c, jwtClaims = Some c
            /\ satisfiesAll c (MemberDiscount.Claims d)
            /\ typeAccepted (MemberDiscount.ProductTypes d) (ProductType item).

(** The same settings with other tax rules; the same item with other
    taxable sub-items. *)
Definition withTaxes (settings : option Settings.t) (taxes : list Tax.t)
    : option Settings.t :=
  match settings with
  | Some s =>
      Some {| Settings.PricesIncludeTaxes := Settings.PricesIncludeTaxes s;
              Settings.Taxes := taxes;
              Settings.MemberDiscounts := Settings.MemberDiscounts s |}
  | None => None
  end.

Definition withTaxableItems (item : Item) (subItems : list Item) : Item :=
  {| ProductSku := ProductSku item;
     PriceInLowestUnit := PriceInLowestUnit item;
     ProductType := ProductType item;
     FixedVAT := FixedVAT item;
     TaxableItems := subItems;
     GetQuantity := GetQuantity item |}.

(** The tax on [amount] at [percentage] percent, as line 192 computes it. *)
Definition taxOn `{GoRuntime} (amount percentage : Z) : Z :=
  rint (F64.div (F64.mul (F64.of_uint64 amount) (F64.of_uint64 percentage))
          F64.hundred).

(** Two member discounts that differ at most in their product SKU list. *)
Definition sameButProducts (d d' : MemberDiscount.t) : Prop :=
  MemberDiscount.Claims d = MemberDiscount.Claims d'
  /\ MemberDiscount.Percentage d = MemberDiscount.Percentage d'
  /\ MemberDiscount.FixedAmount d = MemberDiscount.FixedAmount d'
  /\ MemberDiscount.ProductTypes d = MemberDiscount.ProductTypes d'.

Definition sameSettingsButProducts (s s' : option Settings.t) : Prop :=
  match s, s' with
  | None, None => True
  | Some a, Some b =>
      Settings.PricesIncludeTaxes a = Settings.PricesIncludeTaxes b
      /\ Settings.Taxes a = Settings.Taxes b
      /\ Forall2 sameButProducts (Settings.MemberDiscounts a)
           (Settings.MemberDiscounts b)
  | _, _ => False
  end.

(** ** A runtime to run the examples on

    Decimal numerals [ddd] and [ddd.ddd] are parsed exactly as
    [strconv.ParseFloat] does (the nearest binary64 number, for the lengths
    used here); any other string is taken for a syntax error, where
    [ParseFloat] returns 0.  Unrepresentable conversions saturate, as the
    arm64 instruction does: 0 for negative numbers and NaN, 2^64-1 above. *)

Definition digitValue (c : ascii) : option Z :=
  let n := Z.of_nat (nat_of_ascii c) in
  if (48 <=? n) && (n <=? 57) then Some (n - 48) else None.

Fixpoint scanDecimal (s : string) (seenDot : bool) (m k : Z) : option (Z * Z) :=
  match s with
  | EmptyString => Some (m, k)
  | String c rest =>
      if Ascii.eqb c "."%char then
        if seenDot then None else scanDecimal rest true m k
      else
        match digitValue c with
        | Some d =>
            scanDecimal rest seenDot (10 * m + d) (if seenDot then k + 1 else k)
        | None => None
        end
  end.

Definition parseDecimal (s : string) : float64 :=
  match scanDecimal s false 0 0 with
  | Some (m, k) => F64.div (F64.of_uint64 m) (F64.of_uint64 (10 ^ k))
  | None => F64.zero
  end.

Definition saturate (f : float64) : Z :=
  match f with
  | S754_finite false _ _ | S754_infinity false => U64.modulus - 1
  | _ => 0
  end.

Definition exampleRuntime : GoRuntime :=
  {| ParseFloat := parseDecimal; uint64_unrepresentable := saturate |}.

(** 2.5 = (5 * 2^50) * 2^-51, 3.5 = (7 * 2^50) * 2^-51 and -2.5 *)
Definition f2_5 : float64 := S754_finite false 5629499534213120 (-51).
Definition f3_5 : float64 := S754_finite false 7881299347898368 (-51).
Definition fneg2_5 : float64 := S754_finite true 5629499534213120 (-51).

(** Example inputs *)
Definition plainItem (unitPrice : Z) : Item :=
  {| ProductSku := "sku-1"; PriceInLowestUnit := unitPrice;
     ProductType := "book"; FixedVAT := 0; TaxableItems := [];
     GetQuantity := 1 |}.

Definition vatItem : Item :=
  {| ProductSku := "sku-2"; PriceInLowestUnit := 1000;
     ProductType := "book"; FixedVAT := 20; TaxableItems := [];
     GetQuantity := 1 |}.

Definition tax20 : Tax.t :=
  {| Tax.Percentage := 20; Tax.ProductTypes := []; Tax.Countries := [] |}.

Definition tax7books : Tax.t :=
  {| Tax.Percentage := 7; Tax.ProductTypes := ["book"%string];
     Tax.Countries := ["DE"%string] |}.

Definition everyone (percentage : Z) (products : list string) : MemberDiscount.t :=
  {| MemberDiscount.Claims := ∅;
     MemberDiscount.Percentage := percentage;
     MemberDiscount.FixedAmount := [];
     MemberDiscount.ProductTypes := [];
     MemberDiscount.Products := products |}.

Definition goldMembers : MemberDiscount.t :=
  {| MemberDiscount.Claims := {[ "plan"%string := "gold"%string ]};
     MemberDiscount.Percentage := 10;
     MemberDiscount.FixedAmount :=
       [ {| Amount := "2.50"; Currency := "USD" |} ];
     MemberDiscount.ProductTypes := ["book"%string];
     MemberDiscount.Products := [] |}.

Definition twoFullDiscounts : Settings.t :=
  {| Settings.PricesIncludeTaxes := false; Settings.Taxes := [];
     Settings.MemberDiscounts := [everyone 100 []; everyone 100 []] |}.

Definition goldSettings : Settings.t :=
  {| Settings.PricesIncludeTaxes := false; Settings.Taxes := [];
     Settings.MemberDiscounts := [goldMembers; everyone 5 []] |}.

Definition goldClaims : option (gmap string ClaimValue) :=
  Some {[ "plan"%string := ClaimString "gold" ]}.

Definition settingsWithProducts (products : list string) : Settings.t :=
  {| Settings.PricesIncludeTaxes := true; Settings.Taxes := [tax20];
     Settings.MemberDiscounts := [everyone 10 products] |}.

(** ** Further notions and example inputs *)

(** The same settings with other member discounts. *)
Definition withMemberDiscounts (s : Settings.t) (l : list MemberDiscount.t)
    : Settings.t :=
  {| Settings.PricesIncludeTaxes := Settings.PricesIncludeTaxes s;
     Settings.Taxes := Settings.Taxes s;
     Settings.MemberDiscounts := l |}.

(** Two coupons that differ at most in [ValidForPrice]. *)
Definition sameButValidForPrice (c c' : Coupon.t) : Prop :=
  (forall productType,
      Coupon.ValidForType c productType = Coupon.ValidForType c' productType)
  /\ (forall sku,
         Coupon.ValidForProduct c sku = Coupon.ValidForProduct c' sku)
  /\ Coupon.PercentageDiscount c = Coupon.PercentageDiscount c'
  /\ (forall currency,
         Coupon.FixedDiscount c currency = Coupon.FixedDiscount c' currency).

(** The state of [price] when the loop of [CalculatePrice] ends, before
    line 219 assigns [price.Total] again. *)
Definition priceAfterLoop `{GoRuntime} (settings : option Settings.t)
    (jwtClaims : option (gmap string ClaimValue)) (country currency : string)
    (coupon : option Coupon.t) (items : list Item) : Price.t :=
  fold_left
    (fun price item =>
       addItemPrice price
         (itemPriceOf settings jwtClaims country currency coupon item))
    items emptyPrice.

(** The percentage at which a taxable sub-item is taxed (lines 165-171). *)
Definition subItemPercentage (s : Settings.t) (country : string) (sub : Item)
    : Z :=
  match firstApplicable (Settings.Taxes s) country (ProductType sub) with
  | Some t => Tax.Percentage t
  | None => 0
  end.

(** Example inputs *)
Definition bundle : Item :=
  {| ProductSku := "sku-3"; PriceInLowestUnit := 1500;
     ProductType := "bundle"; FixedVAT := 0;
     TaxableItems :=
       [ {| ProductSku := "sku-4"; PriceInLowestUnit := 1000;
            ProductType := "book"; FixedVAT := 19; TaxableItems := [];
            GetQuantity := 7 |};
         {| ProductSku := "sku-5"; PriceInLowestUnit := 500;
            ProductType := "ebook"; FixedVAT := 0;
            TaxableItems := [plainItem 1]; GetQuantity := 1 |} ];
     GetQuantity := 2 |}.

Definition bookSettings : Settings.t :=
  {| Settings.PricesIncludeTaxes := false;
     Settings.Taxes := [tax7books; tax20];
     Settings.MemberDiscounts := [goldMembers; everyone 5 []] |}.

Definition tenPercentCoupon (validForPrice : string -> Z -> bool) : Coupon.t :=
  {| Coupon.ValidForType := fun productType => String.eqb productType "book";
     Coupon.ValidForPrice := validForPrice;
     Coupon.ValidForProduct := fun _ => true;
     Coupon.PercentageDiscount := 10;
     Coupon.FixedDiscount := fun _ => 0 |}.

(** The same item at another unit price. *)
Definition withUnitPrice (item : Item) (unitPrice : Z) : Item :=
  {| ProductSku := ProductSku item;
     PriceInLowestUnit := unitPrice;
     ProductType := ProductType item;
     FixedVAT := FixedVAT item;
     TaxableItems := TaxableItems item;
     GetQuantity := GetQuantity item |}.

(** The number of binary digits of a positive integer. *)
Definition bits (n : Z) : Z := Z.pos (digits2_pos (Z.to_pos n)).

(** The binary64 number that is the integer [n], for [0 <= n < 2^53]. *)
Definition exactFloat (n : Z) : float64 :=
  match n with
  | Z0 => S754_zero false
  | _ => S754_finite false (Z.to_pos (n * 2 ^ (53 - bits n))) (bits n - 53)
  end.

(** The quotient [n / d] of two integers, rounded half to even. *)
Definition halfEven (n d : Z) : Z :=
  let k := n / d in
  match 2 * (n mod d) ?= d with
  | Lt => k
  | Gt => k + 1
  | Eq => if Z.even k then k else k + 1
  end.

(** [amount * percentage / 100], rounded half to even, on integers. *)
Definition roundedPercent (amount percentage : Z) : Z :=
  halfEven (amount * percentage) 100.

(** * Properties *)

(** ** The constants and the example numbers are what they stand for *)

Example constants_of_integers :
  F64.of_uint64 100 = F64.hundred
  /\ F64.of_uint64 1 = F64.one
  /\ F64.div F64.one (F64.of_uint64 2) = F64.half
  /\ SFopp F64.half = F64.neg_half.
Proof. repeat split. Qed.

Example example_numbers :
  F64.div (F64.of_uint64 5) (F64.of_uint64 2) = f2_5
  /\ F64.div (F64.of_uint64 7) (F64.of_uint64 2) = f3_5
  /\ SFopp f2_5 = fneg2_5
  /\ parseDecimal "2.5" = f2_5
  /\ F64.Modf f2_5 = (F64.of_uint64 2, F64.half)
  /\ F64.Modf fneg2_5 = (SFopp (F64.of_uint64 2), F64.neg_half).
Proof. repeat split. Qed.

(** ** Unsigned arithmetic and conversions stay in range *)

Lemma modulus_pos : 0 < U64.modulus.
Proof. reflexivity. Qed.

Lemma wrap_range z : 0 <= U64.wrap z < U64.modulus.
Proof. unfold U64.wrap. apply Z.mod_pos_bound, modulus_pos. Qed.

Lemma wrap_small z : 0 <= z < U64.modulus -> U64.wrap z = z.
Proof. intros Hz. unfold U64.wrap. now apply Z.mod_small. Qed.

Lemma wrap_le z : 0 <= z -> U64.wrap z <= z.
Proof.
  intros Hz. unfold U64.wrap. apply Z.mod_le; [exact Hz | exact modulus_pos].
Qed.

Lemma wrap_add_l a b : U64.wrap (U64.wrap a + b) = U64.wrap (a + b).
Proof. unfold U64.wrap. apply Z.add_mod_idemp_l. discriminate. Qed.

Lemma wrap_add_r a b : U64.wrap (a + U64.wrap b) = U64.wrap (a + b).
Proof. unfold U64.wrap. apply Z.add_mod_idemp_r. discriminate. Qed.

Lemma uint64_of_float_range `{GoRuntime} f :
  0 <= uint64_of_float f < U64.modulus.
Proof.
  unfold uint64_of_float.
  destruct (F64.trunc f) as [z|]; [|apply wrap_range].
  destruct (0 <=? z) eqn:H0; [|apply wrap_range].
  destruct (z <? U64.modulus) eqn:H1; [|apply wrap_range].
  cbn [andb]. apply Z.leb_le in H0. apply Z.ltb_lt in H1. lia.
Qed.

Lemma rint_range `{GoRuntime} x : 0 <= rint x < U64.modulus.
Proof.
  unfold rint. destruct (F64.Modf x) as [v frac]. apply uint64_of_float_range.
Qed.

(** ** The order is the sum of its items *)

Lemma weighted_app field l ip :
  weighted field (l ++ [ip])
  = weighted field l + field ip * ItemPrice.Quantity ip.
Proof.
  unfold weighted. induction l as [|x l IH].
  - cbn. lia.
  - change (field x * ItemPrice.Quantity x
            + sumZ (map (fun i => field i * ItemPrice.Quantity i) (l ++ [ip]))
            = field x * ItemPrice.Quantity x
              + sumZ (map (fun i => field i * ItemPrice.Quantity i) l)
              + field ip * ItemPrice.Quantity ip).
    rewrite IH. lia.
Qed.

Lemma addItemPrice_consistent p ip :
  consistent p -> consistent (addItemPrice p ip).
Proof.
  intros (Hs & Hd & Ht). unfold consistent.
  cbn [addItemPrice Price.Items Price.Subtotal Price.Discount Price.Taxes].
  rewrite !weighted_app, Hs, Hd, Ht. unfold U64.add, U64.mul.
  now rewrite !wrap_add_l, !wrap_add_r.
Qed.

Lemma loop_consistent {A} (f : A -> ItemPrice.t) items p :
  consistent p ->
  consistent (fold_left (fun price item => addItemPrice price (f item)) items p).
Proof.
  revert p. induction items as [|item items IH]; intros p Hp; cbn.
  - exact Hp.
  - apply IH, addItemPrice_consistent, Hp.
Qed.

Lemma loop_items {A} (f : A -> ItemPrice.t) items p :
  Price.Items (fold_left (fun price item => addItemPrice price (f item)) items p)
  = Price.Items p ++ map f items.
Proof.
  revert p. induction items as [|item items IH]; intros p; cbn.
  - now rewrite app_nil_r.
  - rewrite IH. cbn. now rewrite <- app_assoc.
Qed.

Lemma CalculatePrice_items `{GoRuntime} settings jwtClaims country currency
    coupon items :
  Price.Items (CalculatePrice settings jwtClaims country currency coupon items)
  = map (itemPriceOf settings jwtClaims country currency coupon) items.
Proof. unfold CalculatePrice; cbn. now rewrite loop_items. Qed.

(** C1, amended. Whatever the settings, claims, country, currency, coupon
    and items, the price returned by [CalculatePrice] has
    Total = Subtotal - Discount + Taxes as the source computes it on unsigned
    64-bit integers, that is modulo 2^64, where Subtotal, Discount and Taxes
    are the sums over the items of the field times the quantity: the total is
    derived from the three aggregates.  The four amounts are uint64 values,
    and Total is the integer Subtotal - Discount + Taxes exactly when that
    integer is itself a uint64 value, which is when Discount does not exceed
    Subtotal + Taxes and the result is below 2^64.  For the empty item list
    every field is 0. *)
Theorem CalculatePrice_total_identity `{GoRuntime} settings jwtClaims country
    currency coupon items :
  let p := CalculatePrice settings jwtClaims country currency coupon items in
  Price.Total p
  = U64.add (U64.sub (Price.Subtotal p) (Price.Discount p)) (Price.Taxes p)
  /\ Price.Total p
     = (Price.Subtotal p - Price.Discount p + Price.Taxes p) mod 2 ^ 64
  /\ Price.Subtotal p = U64.wrap (weighted ItemPrice.Subtotal (Price.Items p))
  /\ Price.Discount p = U64.wrap (weighted ItemPrice.Discount (Price.Items p))
  /\ Price.Taxes p = U64.wrap (weighted ItemPrice.Taxes (Price.Items p))
  /\ CalculatePrice settings jwtClaims country currency coupon [] = emptyPrice
  /\ 0 <= Price.Subtotal p < 2 ^ 64
  /\ 0 <= Price.Discount p < 2 ^ 64
  /\ 0 <= Price.Taxes p < 2 ^ 64
  /\ 0 <= Price.Total p < 2 ^ 64
  /\ (Price.Total p = Price.Subtotal p - Price.Discount p + Price.Taxes p
      <-> Price.Discount p <= Price.Subtotal p + Price.Taxes p
          /\ Price.Subtotal p - Price.Discount p + Price.Taxes p < 2 ^ 64).
Proof.
  cbn zeta.
  assert (Hc : consistent
            (fold_left
               (fun price item =>
                  addItemPrice price
                    (itemPriceOf settings jwtClaims country currency coupon item))
               items emptyPrice)).
  { apply loop_consistent. repeat split. }
  destruct Hc as (Hs & Hd & Ht).
  assert (Hmod : Price.Total
                   (CalculatePrice settings jwtClaims country currency coupon
                      items)
                 = (Price.Subtotal
                      (CalculatePrice settings jwtClaims country currency coupon
                         items)
                    - Price.Discount
                        (CalculatePrice settings jwtClaims country currency
                           coupon items)
                    + Price.Taxes
                        (CalculatePrice settings jwtClaims country currency
                           coupon items)) mod 2 ^ 64).
  { unfold CalculatePrice; cbn. unfold U64.add, U64.sub.
    now rewrite wrap_add_l. }
  assert (Hsubtotal : Price.Subtotal
                        (CalculatePrice settings jwtClaims country currency
                           coupon items)
                      = U64.wrap
                          (weighted ItemPrice.Subtotal
                             (Price.Items
                                (CalculatePrice settings jwtClaims country
                                   currency coupon items))))
    by (unfold CalculatePrice; cbn; assumption).
  assert (Hdiscount : Price.Discount
                        (CalculatePrice settings jwtClaims country currency
                           coupon items)
                      = U64.wrap
                          (weighted ItemPrice.Discount
                             (Price.Items
                                (CalculatePrice settings jwtClaims country
                                   currency coupon items))))
    by (unfold CalculatePrice; cbn; assumption).
  assert (Htaxes : Price.Taxes
                     (CalculatePrice settings jwtClaims country currency
                        coupon items)
                   = U64.wrap
                       (weighted ItemPrice.Taxes
                          (Price.Items
                             (CalculatePrice settings jwtClaims country
                                currency coupon items))))
    by (unfold CalculatePrice; cbn; assumption).
  set (p := CalculatePrice settings jwtClaims country currency coupon items)
    in *.
  assert (Hrs : 0 <= Price.Subtotal p < 2 ^ 64)
    by (rewrite Hsubtotal; apply wrap_range).
  assert (Hrd : 0 <= Price.Discount p < 2 ^ 64)
    by (rewrite Hdiscount; apply wrap_range).
  assert (Hrt : 0 <= Price.Taxes p < 2 ^ 64)
    by (rewrite Htaxes; apply wrap_range).
  assert (Hrtotal : 0 <= Price.Total p < 2 ^ 64)
    by (rewrite Hmod; apply Z.mod_pos_bound; lia).
  split; [reflexivity|].
  repeat (split; [assumption || reflexivity|]).
  split.
  - intros Heq. lia.
  - intros [Hle Hlt]. rewrite Hmod. apply Z.mod_small. lia.
Qed.

(** C1, as the claim has it, fails.  With two member discounts of 100% that
    everyone is entitled to and one item of unit price 1000 without tax, the
    order has Subtotal 1000, Discount 2000 and Taxes 0, so that
    Subtotal - Discount + Taxes is -1000, while Total is 2^64 - 1000; this
    does not depend on how the runtime parses decimals or converts floats
    that do not fit. *)
Lemma order_total_is_not_the_difference :
  (let p := @CalculatePrice exampleRuntime (Some twoFullDiscounts) (Some ∅) "US"
              "USD" None [plainItem 1000] in
   Price.Subtotal p = 1000
   /\ Price.Discount p = 2000
   /\ Price.Taxes p = 0
   /\ Price.Total p = 18446744073709550616
   /\ Price.Subtotal p - Price.Discount p + Price.Taxes p = -1000
   /\ Price.Total p
      <> Price.Subtotal p - Price.Discount p + Price.Taxes p)
  /\ forall runtime : GoRuntime,
      let p := @CalculatePrice runtime (Some twoFullDiscounts) (Some ∅) "US"
                 "USD" None [plainItem 1000] in
      Price.Total p
      <> Price.Subtotal p - Price.Discount p + Price.Taxes p.
Proof.
  split.
  - cbn zeta. vm_compute. repeat split; discriminate.
  - intros runtime. cbn zeta. vm_compute. discriminate.
Qed.

(** The test [itemPrice.Total < 0] of line 207 never holds. *)
Lemma itemPriceOf_Total `{GoRuntime} settings jwtClaims country currency coupon
    item :
  let ip := itemPriceOf settings jwtClaims country currency coupon item in
  ItemPrice.Total ip
  = U64.add (U64.sub (ItemPrice.Subtotal ip) (ItemPrice.Discount ip))
      (ItemPrice.Taxes ip).
Proof.
  cbn zeta. unfold itemPriceOf. destruct (applyTaxes _ _ _) as [subtotal taxes].
  cbn [ItemPrice.Total ItemPrice.Subtotal ItemPrice.Discount ItemPrice.Taxes].
  set (total := U64.add _ taxes).
  assert (Htotal : 0 <= total) by apply wrap_range.
  destruct (total <? 0) eqn:E; [|reflexivity].
  apply Z.ltb_lt in E. lia.
Qed.

(** C2 (the code departs from the claim). The total of an item is always
    Subtotal - Discount + Taxes modulo 2^64: the clamp of lines 207-209 is
    never taken.  With two member discounts of 100% that everyone is entitled
    to and one item of unit price 1000 without tax, the discount is 2000, the
    difference Subtotal - Discount + Taxes is -1000, and the item total is
    not 0 but 2^64 - 1000. *)
Theorem item_total_wraps_around `{GoRuntime} :
  (forall settings jwtClaims country currency coupon item,
      let ip := itemPriceOf settings jwtClaims country currency coupon item in
      ItemPrice.Total ip
      = (ItemPrice.Subtotal ip - ItemPrice.Discount ip + ItemPrice.Taxes ip)
        mod 2 ^ 64)
  /\ let ip := itemPriceOf (Some twoFullDiscounts) (Some ∅) "US" "USD" None
                 (plainItem 1000) in
     ItemPrice.Subtotal ip = 1000
     /\ ItemPrice.Discount ip = 2000
     /\ ItemPrice.Taxes ip = 0
     /\ ItemPrice.Subtotal ip - ItemPrice.Discount ip + ItemPrice.Taxes ip < 0
     /\ ItemPrice.Total ip = 2 ^ 64 - 1000
     /\ ItemPrice.Total ip <> 0.
Proof.
  split.
  - intros settings jwtClaims country currency coupon item. cbn zeta.
    rewrite (itemPriceOf_Total settings jwtClaims country currency coupon item).
    unfold U64.add, U64.sub. now rewrite wrap_add_l.
  - cbn zeta. vm_compute. repeat split; discriminate.
Qed.

(** ** The discount of one coupon or member discount *)

Lemma calculateDiscount_le_base `{GoRuntime} a t p f inc :
  calculateDiscount a t p f inc <= (if inc then U64.add a t else a).
Proof.
  unfold calculateDiscount.
  destruct (_ <? _) eqn:E; [lia | now apply Z.ltb_ge in E].
Qed.

Lemma calculateDiscount_range `{GoRuntime} a t p f inc :
  0 <= a -> 0 <= calculateDiscount a t p f inc < U64.modulus.
Proof.
  intros Ha. unfold calculateDiscount.
  set (base := if inc then U64.add a t else a).
  assert (Hb : 0 <= base).
  { subst base. destruct inc; [apply wrap_range | exact Ha]. }
  set (d := U64.add _ f).
  assert (Hd : 0 <= d < U64.modulus) by apply wrap_range.
  destruct (base <? d) eqn:E.
  - apply Z.ltb_lt in E. lia.
  - exact Hd.
Qed.

(** C4. A discount never exceeds its discountable base: the amount plus the
    item's taxes when prices include taxes, the amount alone otherwise.  A
    percentage of 150 on 100 gives 100, and a fixed amount above the base is
    cut down to the base. *)
Theorem calculateDiscount_clamped `{GoRuntime} amountToDiscount taxes percentage
    fixed includeTaxes :
  0 <= amountToDiscount -> 0 <= taxes ->
  0 <= calculateDiscount amountToDiscount taxes percentage fixed includeTaxes
  /\ calculateDiscount amountToDiscount taxes percentage fixed includeTaxes
     <= (if includeTaxes then U64.add amountToDiscount taxes
         else amountToDiscount)
  /\ calculateDiscount amountToDiscount taxes percentage fixed includeTaxes
     <= (if includeTaxes then amountToDiscount + taxes else amountToDiscount)
  /\ calculateDiscount 100 0 150 0 false = 100
  /\ calculateDiscount 100 0 10 500 false = 100
  /\ (forall base,
        base = (if includeTaxes then U64.add amountToDiscount taxes
                else amountToDiscount) ->
        base < fixed < U64.modulus ->
        calculateDiscount amountToDiscount taxes 0 fixed includeTaxes = base).
Proof.
  intros Ha Ht.
  pose proof (calculateDiscount_le_base amountToDiscount taxes percentage fixed
                includeTaxes) as Hle.
  split; [apply calculateDiscount_range, Ha|].
  split; [exact Hle|].
  split.
  { destruct includeTaxes; [|exact Hle].
    etransitivity; [exact Hle|]. apply wrap_le. lia. }
  split; [vm_compute; reflexivity|].
  split; [vm_compute; reflexivity|].
  intros base -> Hf. unfold calculateDiscount. cbn [Z.ltb Z.compare].
  change (U64.add 0 fixed) with (U64.wrap fixed). rewrite (wrap_small fixed).
  - destruct (_ <? fixed) eqn:E; [reflexivity|]. apply Z.ltb_ge in E. lia.
  - destruct includeTaxes.
    + pose proof (wrap_range (amountToDiscount + taxes)). unfold U64.add in Hf. lia.
    + lia.
Qed.

Lemma calculateDiscount_clamped_witness :
  @calculateDiscount exampleRuntime 1000 167 50 900 true <= 1167.
Proof.
  apply (@calculateDiscount_clamped exampleRuntime 1000 167 50 900 true); lia.
Defined.

(** ** Tax resolution *)

Lemma firstApplicable_first taxes country productType before t after :
  taxes = before ++ t :: after ->
  (forall u, In u before -> Tax.AppliesTo u country productType = false) ->
  Tax.AppliesTo t country productType = true ->
  firstApplicable taxes country productType = Some t.
Proof.
  intros -> Hbefore Ht.
  induction before as [|u before IH]; cbn.
  - now rewrite Ht.
  - rewrite (Hbefore u) by now left.
    apply IH. intros v Hv. apply Hbefore. now right.
Qed.

Lemma firstApplicable_none taxes country productType :
  (forall u, In u taxes -> Tax.AppliesTo u country productType = false) ->
  firstApplicable taxes country productType = None.
Proof.
  induction taxes as [|u taxes IH]; intros Hall; cbn.
  - reflexivity.
  - rewrite (Hall u) by now left.
    apply IH. intros v Hv. apply Hall. now right.
Qed.

Lemma taxAmountsOf_fixed_vat settings country item :
  FixedVAT item <> 0 ->
  taxAmountsOf settings country item
  = [ {| price := PriceInLowestUnit item; percentage := FixedVAT item |} ].
Proof.
  intros Hvat. unfold taxAmountsOf.
  destruct (FixedVAT item =? 0) eqn:E; [|reflexivity].
  apply Z.eqb_eq in E. contradiction.
Qed.

Lemma taxAmountsOf_plain s country item :
  FixedVAT item = 0 -> TaxableItems item = [] ->
  taxAmountsOf (Some s) country item
  = match firstApplicable (Settings.Taxes s) country (ProductType item) with
    | Some t => [ {| price := PriceInLowestUnit item;
                     percentage := Tax.Percentage t |} ]
    | None => []
    end.
Proof.
  intros Hvat Hsub. unfold taxAmountsOf. now rewrite Hvat, Hsub.
Qed.

Lemma itemPriceOf_Taxes `{GoRuntime} settings jwtClaims country currency coupon
    item :
  ItemPrice.Taxes (itemPriceOf settings jwtClaims country currency coupon item)
  = snd (applyTaxes (includeTaxesOf settings) (PriceInLowestUnit item)
           (taxAmountsOf settings country item)).
Proof. unfold itemPriceOf. now destruct (applyTaxes _ _ _). Qed.

Lemma itemPriceOf_Subtotal `{GoRuntime} settings jwtClaims country currency
    coupon item :
  ItemPrice.Subtotal (itemPriceOf settings jwtClaims country currency coupon item)
  = fst (applyTaxes (includeTaxesOf settings) (PriceInLowestUnit item)
           (taxAmountsOf settings country item)).
Proof. unfold itemPriceOf. now destruct (applyTaxes _ _ _). Qed.

Lemma itemPriceOf_Discount `{GoRuntime} settings jwtClaims country currency
    coupon item :
  let ip := itemPriceOf settings jwtClaims country currency coupon item in
  ItemPrice.Discount ip
  = addMemberDiscounts settings jwtClaims currency item (ItemPrice.Subtotal ip)
      (ItemPrice.Taxes ip) (includeTaxesOf settings)
      (couponDiscount coupon currency item (ItemPrice.Subtotal ip)
         (ItemPrice.Taxes ip) (includeTaxesOf settings)).
Proof. cbn zeta. unfold itemPriceOf. now destruct (applyTaxes _ _ _). Qed.

(** C5. One item of unit price 1000 and quantity 1, one tax rule of 20% that
    applies, no fixed VAT, no coupon, no member discount.  Prices without
    taxes: Subtotal 1000, Taxes 200, Total 1200.  Prices with taxes: Subtotal
    833, Taxes 167, Total 1000, the unit price again. *)
Theorem inclusive_exclusive_scenario `{GoRuntime} (t : Tax.t) jwtClaims country
    currency sku productType :
  Tax.Percentage t = 20 ->
  Tax.AppliesTo t country productType = true ->
  let item := {| ProductSku := sku; PriceInLowestUnit := 1000;
                 ProductType := productType; FixedVAT := 0;
                 TaxableItems := []; GetQuantity := 1 |} in
  let settings includeTaxes :=
    Some {| Settings.PricesIncludeTaxes := includeTaxes;
            Settings.Taxes := [t]; Settings.MemberDiscounts := [] |} in
  CalculatePrice (settings false) jwtClaims country currency None [item]
  = {| Price.Items := [ {| ItemPrice.Quantity := 1; ItemPrice.Subtotal := 1000;
                           ItemPrice.Discount := 0; ItemPrice.Taxes := 200;
                           ItemPrice.Total := 1200 |} ];
       Price.Subtotal := 1000; Price.Discount := 0; Price.Taxes := 200;
       Price.Total := 1200 |}
  /\ CalculatePrice (settings true) jwtClaims country currency None [item]
     = {| Price.Items := [ {| ItemPrice.Quantity := 1; ItemPrice.Subtotal := 833;
                              ItemPrice.Discount := 0; ItemPrice.Taxes := 167;
                              ItemPrice.Total := 1000 |} ];
          Price.Subtotal := 833; Price.Discount := 0; Price.Taxes := 167;
          Price.Total := 1000 |}.
Proof.
  intros Hpct Happlies item settings.
  assert (Hamounts : forall inc,
             taxAmountsOf (settings inc) country item
             = [ {| price := 1000; percentage := 20 |} ]).
  { intros inc. unfold settings. rewrite taxAmountsOf_plain by reflexivity.
    cbn. now rewrite Happlies, Hpct. }
  split.
  - unfold CalculatePrice, itemPriceOf. cbn [fold_left].
    rewrite Hamounts. vm_compute. reflexivity.
  - unfold CalculatePrice, itemPriceOf. cbn [fold_left].
    rewrite Hamounts. vm_compute. reflexivity.
Qed.

Lemma inclusive_exclusive_scenario_witness :
  Price.Total
    (@CalculatePrice exampleRuntime
       (Some {| Settings.PricesIncludeTaxes := true; Settings.Taxes := [tax20];
                Settings.MemberDiscounts := [] |})
       None "DE" "EUR" None
       [ {| ProductSku := "sku-1"; PriceInLowestUnit := 1000;
            ProductType := "book"; FixedVAT := 0; TaxableItems := [];
            GetQuantity := 1 |} ])
  = 1000.
Proof.
  rewrite (proj2 (@inclusive_exclusive_scenario exampleRuntime tax20 None "DE"
                    "EUR" "sku-1" "book" eq_refl eq_refl)).
  reflexivity.
Defined.

(** C7. An item with a nonzero fixed VAT has exactly one taxable amount: its
    whole unit price at the fixed percentage.  Neither the tax rules of the
    settings nor the taxable sub-items of the item have any effect on its
    price. *)
Theorem fixed_vat_overrides_rules `{GoRuntime} settings jwtClaims country
    currency coupon item :
  FixedVAT item <> 0 ->
  taxAmountsOf settings country item
  = [ {| price := PriceInLowestUnit item; percentage := FixedVAT item |} ]
  /\ forall taxes subItems,
       itemPriceOf (withTaxes settings taxes) jwtClaims country currency coupon
         (withTaxableItems item subItems)
       = itemPriceOf settings jwtClaims country currency coupon item.
Proof.
  intros Hvat. split; [now apply taxAmountsOf_fixed_vat|].
  intros taxes subItems. unfold itemPriceOf.
  rewrite !taxAmountsOf_fixed_vat by exact Hvat.
  destruct settings as [s|]; reflexivity.
Qed.

Lemma fixed_vat_overrides_rules_witness :
  @itemPriceOf exampleRuntime
    (Some {| Settings.PricesIncludeTaxes := false;
             Settings.Taxes := [tax7books; tax20];
             Settings.MemberDiscounts := [] |})
    None "DE" "EUR" None (withTaxableItems vatItem [plainItem 400; plainItem 600])
  = @itemPriceOf exampleRuntime
      (Some {| Settings.PricesIncludeTaxes := false; Settings.Taxes := [];
               Settings.MemberDiscounts := [] |})
      None "DE" "EUR" None vatItem.
Proof.
  apply (proj2 (@fixed_vat_overrides_rules exampleRuntime
                  (Some {| Settings.PricesIncludeTaxes := false;
                           Settings.Taxes := [];
                           Settings.MemberDiscounts := [] |})
                  None "DE" "EUR" None vatItem ltac:(discriminate))
           [tax7books; tax20] [plainItem 400; plainItem 600]).
Defined.

(** C8. An item without fixed VAT and without taxable sub-items is taxed by
    the first rule of [settings.Taxes], in the order of the list, that applies
    to the country and to the product type of the item, whatever the rules
    after it.  When no rule applies the item has no taxable amount and its
    taxes are 0. *)
Theorem first_matching_rule_wins `{GoRuntime} s jwtClaims country currency
    coupon item :
  FixedVAT item = 0 ->
  TaxableItems item = [] ->
  (forall before t after,
      Settings.Taxes s = before ++ t :: after ->
      (forall u, In u before ->
                 Tax.AppliesTo u country (ProductType item) = false) ->
      Tax.AppliesTo t country (ProductType item) = true ->
      taxAmountsOf (Some s) country item
      = [ {| price := PriceInLowestUnit item;
             percentage := Tax.Percentage t |} ])
  /\ ((forall u, In u (Settings.Taxes s) ->
                 Tax.AppliesTo u country (ProductType item) = false) ->
      taxAmountsOf (Some s) country item = []
      /\ ItemPrice.Taxes
           (itemPriceOf (Some s) jwtClaims country currency coupon item) = 0).
Proof.
  intros Hvat Hsub. split.
  - intros before t after Htaxes Hbefore Ht.
    rewrite taxAmountsOf_plain by assumption.
    now rewrite (firstApplicable_first _ _ _ before t after Htaxes Hbefore Ht).
  - intros Hnone.
    assert (Hempty : taxAmountsOf (Some s) country item = []).
    { rewrite taxAmountsOf_plain by assumption.
      now rewrite firstApplicable_none. }
    split; [exact Hempty|].
    rewrite itemPriceOf_Taxes, Hempty. reflexivity.
Qed.

Lemma first_matching_rule_wins_witness :
  taxAmountsOf
    (Some {| Settings.PricesIncludeTaxes := false;
             Settings.Taxes := [tax7books; tax20];
             Settings.MemberDiscounts := [] |})
    "DE" (plainItem 1000)
  = [ {| price := 1000; percentage := 7 |} ].
Proof.
  apply (proj1 (@first_matching_rule_wins exampleRuntime
                  {| Settings.PricesIncludeTaxes := false;
                     Settings.Taxes := [tax7books; tax20];
                     Settings.MemberDiscounts := [] |}
                  None "DE" "EUR" None (plainItem 1000) eq_refl eq_refl)
           [] tax7books [tax20]).
  - reflexivity.
  - intros u [].
  - reflexivity.
Defined.

(** ** Nil settings *)

(** C9, as the source has it. Without settings [CalculatePrice] returns one
    item price per item; no member discount is added, so the discount of an
    item is that of the coupon alone; an item without fixed VAT keeps its
    unit price as subtotal and has taxes 0, while an item with a nonzero
    fixed VAT is still taxed at that percentage on its unit price. *)
Theorem nil_settings_price `{GoRuntime} jwtClaims country currency coupon items
    item :
  let ip := itemPriceOf None jwtClaims country currency coupon item in
  Price.Items (CalculatePrice None jwtClaims country currency coupon items)
  = map (itemPriceOf None jwtClaims country currency coupon) items
  /\ ItemPrice.Subtotal ip = PriceInLowestUnit item
  /\ ItemPrice.Discount ip
     = couponDiscount coupon currency item (ItemPrice.Subtotal ip)
         (ItemPrice.Taxes ip) false
  /\ (FixedVAT item = 0 -> ItemPrice.Taxes ip = 0)
  /\ (FixedVAT item <> 0 ->
      ItemPrice.Taxes ip = taxOn (PriceInLowestUnit item) (FixedVAT item)).
Proof.
  cbn zeta. split; [apply CalculatePrice_items|].
  split.
  { rewrite itemPriceOf_Subtotal. unfold taxAmountsOf.
    destruct (FixedVAT item =? 0); reflexivity. }
  split; [exact (itemPriceOf_Discount None jwtClaims country currency coupon item)|].
  split.
  - intros Hvat. rewrite itemPriceOf_Taxes. unfold taxAmountsOf.
    now rewrite Hvat.
  - intros Hvat. rewrite itemPriceOf_Taxes, taxAmountsOf_fixed_vat by exact Hvat.
    cbn. apply wrap_small, rint_range.
Qed.

Lemma nil_settings_price_witness :
  ItemPrice.Taxes
    (@itemPriceOf exampleRuntime None None "DE" "EUR" None (plainItem 1000)) = 0.
Proof.
  destruct (@nil_settings_price exampleRuntime None "DE" "EUR" None []
              (plainItem 1000)) as (_ & _ & _ & Hplain & _).
  apply Hplain. reflexivity.
Defined.

(** C9, as the claim has it, fails: with nil settings the item [vatItem]
    (unit price 1000, fixed VAT 20) has taxes 200. *)
Lemma nil_settings_fixed_vat_taxed :
  Price.Items (@CalculatePrice exampleRuntime None None "DE" "EUR" None [vatItem])
  = [ {| ItemPrice.Quantity := 1; ItemPrice.Subtotal := 1000;
         ItemPrice.Discount := 0; ItemPrice.Taxes := 200;
         ItemPrice.Total := 1200 |} ]
  /\ ~ Forall (fun ip => ItemPrice.Taxes ip = 0)
         (Price.Items
            (@CalculatePrice exampleRuntime None None "DE" "EUR" None [vatItem])).
Proof.
  split; [vm_compute; reflexivity|].
  intros Hall. apply Forall_inv in Hall. vm_compute in Hall. discriminate.
Qed.

(** ** Member discounts *)

Lemma contains_In l s : contains l s = true <-> In s l.
Proof.
  unfold contains. rewrite existsb_exists. split.
  - intros (x & Hx & Heq). apply String.eqb_eq in Heq. now subst.
  - intros Hin. exists s. split; [exact Hin | apply String.eqb_refl].
Qed.

Lemma ValidForType_accepts d productType :
  MemberDiscount.ValidForType d productType = true
  <-> typeAccepted (MemberDiscount.ProductTypes d) productType.
Proof.
  unfold MemberDiscount.ValidForType, typeAccepted.
  destruct (MemberDiscount.ProductTypes d) as [|x l] eqn:E.
  - split; [now left | reflexivity].
  - rewrite contains_In. split; [now right|].
    intros [Hnil | Hin]; [discriminate | exact Hin].
Qed.

Lemma HasClaims_satisfiesAll userClaims required :
  claims.HasClaims userClaims required = true
  <-> satisfiesAll userClaims required.
Proof.
  unfold claims.HasClaims, satisfiesAll. rewrite forallb_forall. split.
  - intros Hall k v Hkv.
    specialize (Hall (k, v)). cbn in Hall.
    assert (Hin : In (k, v) (map_to_list required)).
    { apply list_elem_of_In, elem_of_map_to_list, Hkv. }
    specialize (Hall Hin).
    destruct (userClaims !! k) as [[s| | |]|]; try discriminate.
    apply String.eqb_eq in Hall. now subst.
  - intros Hall [k v] Hin. cbn.
    apply list_elem_of_In, elem_of_map_to_list in Hin.
    rewrite (Hall k v Hin). apply String.eqb_refl.
Qed.

Lemma memberDiscountApplies_eligible jwtClaims d item :
  memberDiscountApplies jwtClaims d item = true <-> eligible jwtClaims d item.
Proof.
  unfold memberDiscountApplies, eligible. destruct jwtClaims as [c|].
  - rewrite andb_true_iff, HasClaims_satisfiesAll, ValidForType_accepts. split.
    + intros [Hc Ht]. exists c. auto.
    + intros (c' & [= <-] & Hc & Ht). auto.
  - split; [discriminate|]. intros (c & Hc & _). discriminate.
Qed.

(** The loop over the member discounts adds up, modulo 2^64, the discounts
    of those that apply. *)
Lemma stacking_loop {A} (applies : A -> bool) (amount : A -> Z) l acc :
  U64.wrap
    (fold_left (fun acc d => if applies d then U64.add acc (amount d) else acc)
       l acc)
  = U64.wrap (acc + sumZ (map amount (List.filter applies l))).
Proof.
  revert acc. induction l as [|d l IH]; intros acc.
  - cbn. now rewrite Z.add_0_r.
  - cbn [fold_left List.filter]. rewrite IH. destruct (applies d).
    + unfold sumZ. cbn [map fold_right]. unfold U64.add.
      rewrite wrap_add_l. f_equal. lia.
    + reflexivity.
Qed.

Lemma stacking_loop_range {A} (applies : A -> bool) (amount : A -> Z) l acc :
  0 <= acc < U64.modulus ->
  0 <= fold_left
         (fun acc d => if applies d then U64.add acc (amount d) else acc) l acc
    < U64.modulus.
Proof.
  revert acc. induction l as [|d l IH]; intros acc Hacc.
  - exact Hacc.
  - cbn [fold_left]. apply IH. destruct (applies d); [apply wrap_range | exact Hacc].
Qed.

Lemma stacking_loop_none {A} (l : list A) (acc : Z) :
  fold_left (fun acc _ => acc) l acc = acc.
Proof. revert acc. induction l as [|d l IH]; intros acc; [reflexivity | apply IH]. Qed.

Lemma applyTaxes_Subtotal_nonneg `{GoRuntime} inc subtotal amounts :
  0 <= subtotal -> 0 <= fst (applyTaxes inc subtotal amounts).
Proof.
  intros Hs. unfold applyTaxes. destruct amounts as [|a l]; [exact Hs|].
  assert (Hfold : forall l acc, 0 <= fst acc ->
                    0 <= fst (fold_left (addTax inc) l acc)).
  { clear. intros l. induction l as [|b l IH]; intros acc Hacc; [exact Hacc|].
    cbn [fold_left]. apply IH. destruct acc as [s t]. unfold addTax.
    destruct inc; cbn [fst]; [apply wrap_range | exact Hacc]. }
  apply Hfold. destruct inc; cbn; lia.
Qed.

Lemma couponDiscount_range `{GoRuntime} coupon currency item subtotal taxes inc :
  0 <= subtotal ->
  0 <= couponDiscount coupon currency item subtotal taxes inc < U64.modulus.
Proof.
  intros Hs. unfold couponDiscount. destruct coupon as [c|]; [|now split].
  destruct (_ && _); [|now split].
  apply calculateDiscount_range, Hs.
Qed.

(** C6. (With [claims.HasClaims] as the specification describes it.)  A
    member discount is added to the discount of an item exactly when the
    claims of the caller are not nil and hold every entry of the required
    claims of the discount, and the product types of the discount are empty
    or contain the product type of the item.  The discount of the item is the
    discount of the coupon plus the discounts of all such member discounts,
    modulo 2^64; with nil claims it is the discount of the coupon alone. *)
Theorem member_discounts_gate `{GoRuntime} s jwtClaims country currency coupon
    item :
  0 <= PriceInLowestUnit item ->
  let ip := itemPriceOf (Some s) jwtClaims country currency coupon item in
  let include := Settings.PricesIncludeTaxes s in
  let contribution d :=
    calculateDiscount (ItemPrice.Subtotal ip) (ItemPrice.Taxes ip)
      (MemberDiscount.Percentage d) (MemberDiscount.FixedDiscount d currency)
      include in
  let ofCoupon :=
    couponDiscount coupon currency item (ItemPrice.Subtotal ip)
      (ItemPrice.Taxes ip) include in
  (forall d, memberDiscountApplies jwtClaims d item = true
             <-> eligible jwtClaims d item)
  /\ ItemPrice.Discount ip
     = U64.wrap
         (ofCoupon
          + sumZ (map contribution
                    (List.filter (fun d => memberDiscountApplies jwtClaims d item)
                       (Settings.MemberDiscounts s))))
  /\ (jwtClaims = None -> ItemPrice.Discount ip = ofCoupon)
  /\ ((forall d, In d (Settings.MemberDiscounts s) ->
                 ~ eligible jwtClaims d item) ->
      ItemPrice.Discount ip = ofCoupon).
Proof.
  intros Hprice. cbn zeta.
  pose proof (itemPriceOf_Discount (Some s) jwtClaims country currency coupon
                item) as Hd. cbn zeta in Hd.
  assert (Hsub : 0 <= ItemPrice.Subtotal
                        (itemPriceOf (Some s) jwtClaims country currency coupon
                           item)).
  { rewrite itemPriceOf_Subtotal. now apply applyTaxes_Subtotal_nonneg. }
  set (ip := itemPriceOf (Some s) jwtClaims country currency coupon item) in *.
  cbn [includeTaxesOf] in Hd.
  pose proof (couponDiscount_range coupon currency item (ItemPrice.Subtotal ip)
                (ItemPrice.Taxes ip) (Settings.PricesIncludeTaxes s) Hsub)
    as Hcoupon.
  split; [intros d; apply memberDiscountApplies_eligible|].
  split.
  { rewrite <- stacking_loop. rewrite Hd at 1. unfold addMemberDiscounts.
    symmetry. apply wrap_small.
    exact (stacking_loop_range
             (fun d => memberDiscountApplies jwtClaims d item)
             (fun d =>
                calculateDiscount (ItemPrice.Subtotal ip) (ItemPrice.Taxes ip)
                  (MemberDiscount.Percentage d)
                  (MemberDiscount.FixedDiscount d currency)
                  (Settings.PricesIncludeTaxes s))
             (Settings.MemberDiscounts s) _ Hcoupon). }
  split.
  { intros ->. rewrite Hd. unfold addMemberDiscounts.
    cbn [memberDiscountApplies]. apply stacking_loop_none. }
  intros Hnone. rewrite Hd at 1. unfold addMemberDiscounts.
  generalize (couponDiscount coupon currency item (ItemPrice.Subtotal ip)
                (ItemPrice.Taxes ip) (Settings.PricesIncludeTaxes s)).
  induction (Settings.MemberDiscounts s) as [|d l IH]; intros acc.
  - reflexivity.
  - cbn [fold_left].
    destruct (memberDiscountApplies jwtClaims d item) eqn:E.
    + apply memberDiscountApplies_eligible in E.
      exfalso. apply (Hnone d); [now left | exact E].
    + apply IH. intros d' Hd'. apply Hnone. now right.
Qed.

Lemma member_discounts_gate_witness :
  ItemPrice.Discount
    (@itemPriceOf exampleRuntime (Some goldSettings) goldClaims "US" "USD" None
       (plainItem 1000))
  = 400.
Proof.
  destruct (@member_discounts_gate exampleRuntime goldSettings goldClaims "US"
              "USD" None (plainItem 1000) ltac:(cbn; lia)) as (_ & Hsum & _).
  rewrite Hsum. vm_compute. reflexivity.
Defined.

(** ** The product SKU list of a member discount *)

Lemma member_loop_same `{GoRuntime} jwtClaims currency item subtotal taxes inc
    l l' :
  Forall2 sameButProducts l l' ->
  forall acc,
    addMemberDiscounts
      (Some {| Settings.PricesIncludeTaxes := inc; Settings.Taxes := [];
               Settings.MemberDiscounts := l |})
      jwtClaims currency item subtotal taxes inc acc
    = addMemberDiscounts
        (Some {| Settings.PricesIncludeTaxes := inc; Settings.Taxes := [];
                 Settings.MemberDiscounts := l' |})
        jwtClaims currency item subtotal taxes inc acc.
Proof.
  unfold addMemberDiscounts. cbn [Settings.MemberDiscounts].
  induction 1 as [|d d' l l' (Hc & Hp & Hf & Ht) Hrest IH]; intros acc.
  - reflexivity.
  - cbn [fold_left].
    assert (Happ : memberDiscountApplies jwtClaims d item
                   = memberDiscountApplies jwtClaims d' item).
    { unfold memberDiscountApplies, MemberDiscount.ValidForType.
      now rewrite Hc, Ht. }
    assert (Hfix : MemberDiscount.FixedDiscount d currency
                   = MemberDiscount.FixedDiscount d' currency).
    { unfold MemberDiscount.FixedDiscount. now rewrite Hf. }
    rewrite Happ, Hp, Hfix. apply IH.
Qed.

Lemma itemPriceOf_same `{GoRuntime} s s' jwtClaims country currency coupon item :
  sameSettingsButProducts s s' ->
  itemPriceOf s jwtClaims country currency coupon item
  = itemPriceOf s' jwtClaims country currency coupon item.
Proof.
  destruct s as [[inc taxes l]|], s' as [[inc' taxes' l']|]; cbn;
    try contradiction; [|reflexivity].
  intros (<- & <- & Hl). unfold itemPriceOf.
  cbn [includeTaxesOf Settings.PricesIncludeTaxes].
  change (taxAmountsOf (Some {| Settings.PricesIncludeTaxes := inc;
                                Settings.Taxes := taxes;
                                Settings.MemberDiscounts := l' |}) country item)
    with (taxAmountsOf (Some {| Settings.PricesIncludeTaxes := inc;
                                Settings.Taxes := taxes;
                                Settings.MemberDiscounts := l |}) country item).
  destruct (applyTaxes _ _ _) as [subtotal tax].
  pose proof (member_loop_same jwtClaims currency item subtotal tax inc l l' Hl)
    as Hloop.
  unfold addMemberDiscounts in *. cbn [Settings.MemberDiscounts] in *.
  now rewrite Hloop.
Qed.

(** C10. The price does not depend on the product SKU lists of the member
    discounts: two calls of [CalculatePrice] whose settings differ at most in
    the [Products] of their member discounts return the same price. *)
Theorem products_list_ignored `{GoRuntime} s s' jwtClaims country currency
    coupon items :
  sameSettingsButProducts s s' ->
  CalculatePrice s jwtClaims country currency coupon items
  = CalculatePrice s' jwtClaims country currency coupon items.
Proof.
  intros Hsame. unfold CalculatePrice.
  assert (Hloop : forall p,
            fold_left
              (fun price item =>
                 addItemPrice price
                   (itemPriceOf s jwtClaims country currency coupon item))
              items p
            = fold_left
                (fun price item =>
                   addItemPrice price
                     (itemPriceOf s' jwtClaims country currency coupon item))
                items p).
  { induction items as [|item items IH]; intros p; [reflexivity|].
    cbn [fold_left]. rewrite (itemPriceOf_same s s') by exact Hsame. apply IH. }
  now rewrite Hloop.
Qed.

Lemma products_list_ignored_witness :
  @CalculatePrice exampleRuntime (Some (settingsWithProducts [])) (Some ∅)
    "DE" "EUR" None [plainItem 1000; vatItem]
  = @CalculatePrice exampleRuntime
      (Some (settingsWithProducts ["sku-9"%string])) (Some ∅) "DE" "EUR" None
      [plainItem 1000; vatItem].
Proof.
  apply (@products_list_ignored exampleRuntime
           (Some (settingsWithProducts []))
           (Some (settingsWithProducts ["sku-9"%string]))).
  cbn. repeat split. constructor; [|constructor]. repeat split.
Defined.

(** ** binary64: numbers that need no rounding *)

Lemma digits2_pos_size p : digits2_pos p = Pos.size p.
Proof. induction p; cbn; congruence. Qed.

Lemma digits_bounds p :
  2 ^ (Z.pos (digits2_pos p) - 1) <= Z.pos p < 2 ^ Z.pos (digits2_pos p).
Proof.
  rewrite digits2_pos_size.
  pose proof (Pos.size_gt p) as Hgt. pose proof (Pos.size_le p) as Hle.
  apply Pos2Z.pos_lt_pos in Hgt. apply Pos2Z.pos_le_pos in Hle.
  rewrite Pos2Z.inj_pow in Hgt, Hle.
  change (Z.pos p~0) with (2 * Z.pos p) in Hle.
  split; [|exact Hgt].
  assert (Hp : 2 ^ Z.pos (Pos.size p) = 2 * 2 ^ (Z.pos (Pos.size p) - 1)).
  { rewrite <- Z.pow_succ_r by lia. f_equal. lia. }
  lia.
Qed.

Lemma digits_unique p d :
  2 ^ (d - 1) <= Z.pos p < 2 ^ d -> Z.pos (digits2_pos p) = d.
Proof.
  intros [Hlo Hhi]. pose proof (digits_bounds p) as [Hlo' Hhi'].
  set (d' := Z.pos (digits2_pos p)) in *.
  assert (Hd : 0 < d).
  { destruct (Z.ltb_spec 0 d) as [|Hneg]; [assumption|].
    exfalso. destruct (Z.eq_dec d 0) as [->|Hne].
    - cbn in Hhi. lia.
    - rewrite Z.pow_neg_r in Hhi by lia. lia. }
  destruct (Z.lt_trichotomy d' d) as [Hlt | [Heq | Hgt]]; [|exact Heq|].
  - exfalso. assert (2 ^ d' <= 2 ^ (d - 1)) by (apply Z.pow_le_mono_r; lia). lia.
  - exfalso. assert (2 ^ d <= 2 ^ (d' - 1)) by (apply Z.pow_le_mono_r; lia). lia.
Qed.

Lemma digits_shift p p' n :
  0 <= n -> Z.pos p' = Z.pos p * 2 ^ n ->
  Z.pos (digits2_pos p') = Z.pos (digits2_pos p) + n.
Proof.
  intros Hn Hp'. apply digits_unique. rewrite Hp'.
  pose proof (digits_bounds p) as [Hlo Hhi].
  replace (Z.pos (digits2_pos p) + n - 1) with (Z.pos (digits2_pos p) - 1 + n) by lia.
  rewrite !Z.pow_add_r by lia.
  assert (0 < 2 ^ n) by (apply Z.pow_pos_nonneg; lia).
  split; nia.
Qed.

Lemma iter_xO p n : Z.pos (Pos.iter xO p n) = Z.pos p * 2 ^ Z.pos n.
Proof.
  induction n as [|n IH] using Pos.peano_ind.
  - cbn. lia.
  - rewrite Pos.iter_succ, Pos2Z.inj_succ, Z.pow_succ_r by lia.
    change (Z.pos (Pos.iter xO p n)~0) with (2 * Z.pos (Pos.iter xO p n)).
    rewrite IH. lia.
Qed.

Lemma shl_align_le mx ex ex' :
  ex' <= ex ->
  shl_align mx ex ex' = (Z.to_pos (Z.pos mx * 2 ^ (ex - ex')), ex').
Proof.
  intros Hle. unfold shl_align.
  destruct (Z.sub ex' ex) as [|d|d] eqn:E.
  - assert (ex' = ex) by lia. subst. rewrite Z.sub_diag, Z.mul_1_r. reflexivity.
  - lia.
  - replace (ex - ex') with (Z.pos d) by lia.
    rewrite <- iter_xO. reflexivity.
Qed.

Lemma shl_align_ge mx ex ex' : ex <= ex' -> shl_align mx ex ex' = (mx, ex).
Proof.
  intros Hle. unfold shl_align. destruct (Z.sub ex' ex) eqn:E; try reflexivity. lia.
Qed.

Lemma iter_pos_nat {A} (f : A -> A) p x :
  SpecFloat.iter_pos f p x = Nat.iter (Pos.to_nat p) f x.
Proof.
  revert x. induction p as [p IH|p IH|]; intros x;
    cbn [SpecFloat.iter_pos].
  - rewrite !IH, Pos2Nat.inj_xI.
    replace (S (2 * Pos.to_nat p))%nat with (Pos.to_nat p + (Pos.to_nat p + 1))%nat by lia.
    rewrite !Nat.iter_add. reflexivity.
  - rewrite !IH, Pos2Nat.inj_xO.
    replace (2 * Pos.to_nat p)%nat with (Pos.to_nat p + Pos.to_nat p)%nat by lia.
    rewrite Nat.iter_add. reflexivity.
  - reflexivity.
Qed.

Lemma shr_1_even m :
  shr_1 {| shr_m := 2 * Z.pos m; shr_r := false; shr_s := false |}
  = {| shr_m := Z.pos m; shr_r := false; shr_s := false |}.
Proof. reflexivity. Qed.

Lemma iter_shr_1_exact m n :
  Nat.iter n shr_1
    {| shr_m := Z.pos m * 2 ^ Z.of_nat n; shr_r := false; shr_s := false |}
  = {| shr_m := Z.pos m; shr_r := false; shr_s := false |}.
Proof.
  revert m. induction n as [|n IH]; intros m.
  - cbn [Nat.iter]. now rewrite Z.mul_1_r.
  - rewrite Nat.iter_succ_r.
    replace (Z.pos m * 2 ^ Z.of_nat (S n)) with (2 * Z.pos (m * Z.to_pos (2 ^ Z.of_nat n))).
    + rewrite shr_1_even. rewrite Pos2Z.inj_mul, Z2Pos.id by (apply Z.pow_pos_nonneg; lia).
      apply IH.
    + rewrite Pos2Z.inj_mul, Z2Pos.id by (apply Z.pow_pos_nonneg; lia).
      rewrite Nat2Z.inj_succ, Z.pow_succ_r by lia. lia.
Qed.

Lemma shr_exact m e n :
  0 <= n ->
  shr {| shr_m := Z.pos m * 2 ^ n; shr_r := false; shr_s := false |} e n
  = ({| shr_m := Z.pos m; shr_r := false; shr_s := false |}, e + n).
Proof.
  intros Hn. unfold shr. destruct n as [|p|p]; [| |lia].
  - now rewrite Z.mul_1_r, Z.add_0_r.
  - rewrite iter_pos_nat. rewrite <- (positive_nat_Z p) at 1.
    now rewrite iter_shr_1_exact.
Qed.

Lemma fexp_eq x : fexp F64.prec F64.emax x = Z.max (x - 53) (-1074).
Proof. reflexivity. Qed.

Lemma bounded_iff m e :
  bounded F64.prec F64.emax m e = true
  <-> Z.max (Z.pos (digits2_pos m) + e - 53) (-1074) = e /\ e <= 971.
Proof.
  unfold bounded, canonical_mantissa. rewrite andb_true_iff, Z.eqb_eq, Z.leb_le.
  rewrite fexp_eq. reflexivity.
Qed.

Lemma binary_round_aux_canonical s m e :
  bounded F64.prec F64.emax m e = true ->
  binary_round_aux F64.prec F64.emax s (Z.pos m) e loc_Exact = S754_finite s m e.
Proof.
  intros Hb. pose proof Hb as Hb'. apply bounded_iff in Hb' as [Hcanon Hmax].
  unfold binary_round_aux, shr_fexp. cbn [shr_record_of_loc Zdigits2].
  rewrite fexp_eq, Hcanon, Z.sub_diag. cbn [shr shr_m loc_of_shr_record round_nearest_even Zdigits2].
  rewrite fexp_eq, Hcanon, Z.sub_diag. cbn [shr shr_m].
  replace (e <=? F64.emax - F64.prec) with true; [reflexivity|].
  symmetry. apply Z.leb_le. exact Hmax.
Qed.

(** A number that binary64 holds is rounded to itself: [m * 2^e] is the
    number [m' * 2^e'] whose representation is canonical. *)
Lemma binary_round_exact s m e m' e' :
  bounded F64.prec F64.emax m' e' = true ->
  Z.pos m * 2 ^ (e - Z.min e e') = Z.pos m' * 2 ^ (e' - Z.min e e') ->
  binary_round F64.prec F64.emax s m e = S754_finite s m' e'.
Proof.
  intros Hb Hval. pose proof Hb as Hb'. apply bounded_iff in Hb' as [Hcanon Hmax].
  assert (Hmag : Z.pos (digits2_pos m) + e = Z.pos (digits2_pos m') + e').
  { set (c := Z.min e e') in *.
    assert (Hc : 0 <= e - c /\ 0 <= e' - c) by (subst c; lia).
    pose proof (digits_shift m (Z.to_pos (Z.pos m * 2 ^ (e - c))) (e - c)) as H1.
    pose proof (digits_shift m' (Z.to_pos (Z.pos m * 2 ^ (e - c))) (e' - c)) as H2.
    assert (0 < 2 ^ (e - c)) by (apply Z.pow_pos_nonneg; lia).
    rewrite Z2Pos.id in H1, H2 by lia.
    specialize (H1 (proj1 Hc) eq_refl). specialize (H2 (proj2 Hc) Hval). lia. }
  unfold binary_round. rewrite fexp_eq, Hmag, Hcanon.
  destruct (Z.le_gt_cases e' e) as [Hle | Hgt].
  - rewrite shl_align_le by exact Hle.
    rewrite Z.min_r in Hval by exact Hle.
    rewrite Z.sub_diag, Z.mul_1_r in Hval. rewrite Hval. cbn [Z.to_pos].
    now apply binary_round_aux_canonical.
  - rewrite shl_align_ge by lia.
    rewrite Z.min_l in Hval by lia.
    rewrite Z.sub_diag, Z.mul_1_r in Hval.
    unfold binary_round_aux, shr_fexp. cbn [shr_record_of_loc Zdigits2].
    rewrite fexp_eq, Hmag, Hcanon, Hval, shr_exact by lia.
    cbn [shr_m loc_of_shr_record round_nearest_even Zdigits2].
    replace (e + (e' - e)) with e' by lia.
    rewrite fexp_eq, Hcanon, Z.sub_diag. cbn [shr shr_m].
    replace (e' <=? F64.emax - F64.prec) with true; [reflexivity|].
    symmetry. apply Z.leb_le. exact Hmax.
Qed.

(** ** [rint] on numbers that are not negative *)

Lemma uint64_of_float_finite `{GoRuntime} m e :
  0 <= Z.shiftl (Z.pos m) e < U64.modulus ->
  uint64_of_float (S754_finite false m e) = Z.shiftl (Z.pos m) e.
Proof.
  intros [Hlo Hhi]. unfold uint64_of_float. cbn [F64.trunc cond_Zopp].
  apply Z.leb_le in Hlo. apply Z.ltb_lt in Hhi. rewrite Hlo, Hhi. reflexivity.
Qed.

Lemma uint64_of_float_zero `{GoRuntime} s : uint64_of_float (S754_zero s) = 0.
Proof. reflexivity. Qed.

Lemma ltb_half m e :
  F64.ltb F64.half (S754_finite false m e)
  = (-53 <? e) || ((e =? -53) && (4503599627370496 <? Z.pos m)).
Proof.
  unfold F64.ltb, SFltb, F64.half, SFcompare.
  destruct (Z.compare_spec (-53) e) as [<- | Hlt | Hgt].
  - rewrite Z.ltb_irrefl, Z.eqb_refl. cbn [orb andb].
    reflexivity.
  - apply Z.ltb_lt in Hlt. rewrite Hlt. reflexivity.
  - replace (-53 <? e) with false by (symmetry; apply Z.ltb_ge; lia).
    replace (e =? -53) with false by (symmetry; apply Z.eqb_neq; lia).
    reflexivity.
Qed.

Lemma eqb_half m e :
  F64.eqb (S754_finite false m e) F64.half
  = (e =? -53) && (Z.pos m =? 4503599627370496).
Proof.
  unfold F64.eqb, SFeqb, F64.half, SFcompare.
  destruct (Z.compare_spec e (-53)) as [-> | Hlt | Hgt].
  - rewrite Z.eqb_refl. cbn [andb].
    unfold Z.eqb. rewrite Pos.eqb_compare. unfold Pos.compare. reflexivity.
  - replace (e =? -53) with false by (symmetry; apply Z.eqb_neq; lia).
    reflexivity.
  - replace (e =? -53) with false by (symmetry; apply Z.eqb_neq; lia).
    reflexivity.
Qed.

(** [rint] on a positive number. *)
Lemma rint_positive `{GoRuntime} m e :
  rint (S754_finite false m e)
  = let '(v, frac) := F64.Modf (S754_finite false m e) in
    uint64_of_float
      (if F64.ltb F64.half frac
          || (F64.eqb frac F64.half && negb (uint64_of_float v mod 2 =? 0))
       then F64.add v F64.one else v).
Proof. reflexivity. Qed.

(** [Modf] on a positive number with digits below the binary point. *)
Lemma Modf_fraction m e :
  e < 0 ->
  let q := Z.pos m / 2 ^ (- e) in
  let r := Z.pos m mod 2 ^ (- e) in
  F64.Modf (S754_finite false m e)
  = if q =? 0 then (S754_zero false, S754_finite false m e)
    else (S754_finite false (Z.to_pos (q * 2 ^ (- e))) e,
          binary_normalize F64.prec F64.emax r e false).
Proof.
  intros He q r. unfold F64.Modf.
  replace (0 <=? e) with false by (symmetry; apply Z.leb_gt; exact He).
  rewrite Z.shiftr_div_pow2, Z.shiftl_mul_pow2 by lia. fold q.
  assert (Hpow : 0 < 2 ^ (- e)) by (apply Z.pow_pos_nonneg; lia).
  assert (Hq : 0 <= q) by (apply Z.div_pos; lia).
  destruct (Z.eqb_spec q 0) as [-> | Hne].
  - reflexivity.
  - destruct (q * 2 ^ (- e)) as [|p|p] eqn:E; [nia | | nia].
    cbn [Z.to_pos]. f_equal.
    unfold F64.sub, SFsub. rewrite Z.min_id, !shl_align_ge by lia.
    cbn [fst cond_Zopp]. f_equal.
    subst r. rewrite Z.mod_eq by lia. fold q. lia.
Qed.

Lemma pow2_pos n : 0 <= n -> 0 < 2 ^ n.
Proof. intros Hn. apply Z.pow_pos_nonneg; lia. Qed.

Lemma pow2_split a b : 0 <= a -> 0 <= b -> 2 ^ (a + b) = 2 ^ a * 2 ^ b.
Proof. intros Ha Hb. apply Z.pow_add_r; assumption. Qed.

Lemma digits_le p n : 0 <= n -> Z.pos p < 2 ^ n -> Z.pos (digits2_pos p) <= n.
Proof.
  intros Hn Hp. pose proof (digits_bounds p) as [Hlo _].
  destruct (Z.le_gt_cases (Z.pos (digits2_pos p)) n) as [|Hgt]; [assumption|].
  exfalso.
  assert (2 ^ n <= 2 ^ (Z.pos (digits2_pos p) - 1)) by (apply Z.pow_le_mono_r; lia).
  lia.
Qed.

(** The canonical representation of [n * 2^e] for [n] of at most 53 bits. *)
Lemma binary_round_short s n e :
  -1021 <= e <= 971 ->
  Z.pos n < 2 ^ 53 ->
  let d := Z.pos (digits2_pos n) in
  binary_round F64.prec F64.emax s n e
  = S754_finite s (Z.to_pos (Z.pos n * 2 ^ (53 - d))) (e + d - 53).
Proof.
  intros He Hn d.
  assert (Hd : 1 <= d <= 53).
  { split; [subst d; lia | apply digits_le; [lia | exact Hn]]. }
  assert (Hpos : 0 < Z.pos n * 2 ^ (53 - d)).
  { pose proof (pow2_pos (53 - d)). lia. }
  assert (Hdig : Z.pos (digits2_pos (Z.to_pos (Z.pos n * 2 ^ (53 - d)))) = 53).
  { rewrite (digits_shift n _ (53 - d)); [fold d; lia | lia |].
    rewrite Z2Pos.id by exact Hpos. reflexivity. }
  apply binary_round_exact.
  - apply bounded_iff. rewrite Hdig. lia.
  - rewrite Z.min_r by lia. rewrite Z2Pos.id by exact Hpos.
    rewrite Z.sub_diag, Z.mul_1_r. f_equal. f_equal. lia.
Qed.

Lemma uint64_of_integer `{GoRuntime} n e :
  e <= 0 -> 0 < n < U64.modulus ->
  uint64_of_float (S754_finite false (Z.to_pos (n * 2 ^ (- e))) e) = n.
Proof.
  intros He Hn. pose proof (pow2_pos (- e)) as Hpow.
  assert (Hshift : Z.shiftl (Z.pos (Z.to_pos (n * 2 ^ (- e)))) e = n).
  { rewrite Z2Pos.id by nia.
    rewrite <- (Z.opp_involutive e) at 2.
    rewrite Z.shiftl_opp_r, Z.shiftr_div_pow2 by lia.
    apply Z.div_mul. lia. }
  rewrite uint64_of_float_finite; rewrite Hshift; [reflexivity | lia].
Qed.

(** Adding [1.0] to the integer [q], held with [k] bits below the point. *)
Lemma add_one_exact q k :
  0 < q < 2 ^ 52 -> 0 <= k <= 52 ->
  let d := Z.pos (digits2_pos (Z.to_pos (q + 1))) in
  F64.add (S754_finite false (Z.to_pos (q * 2 ^ k)) (- k)) F64.one
  = S754_finite false (Z.to_pos ((q + 1) * 2 ^ (53 - d))) (d - 53).
Proof.
  intros Hq Hk d.
  assert (Hd : 1 <= d <= 53).
  { split; [subst d; lia|]. apply digits_le; [lia|]. rewrite Z2Pos.id by lia.
    change (2 ^ 53) with (2 * 2 ^ 52). lia. }
  pose proof (pow2_pos k) as Hpk. pose proof (pow2_pos (52 - k)) as Hp52.
  pose proof (pow2_pos (53 - d)) as Hp53. pose proof (pow2_pos (d - 1)) as Hpd.
  assert (Hsplit : 2 ^ k * 2 ^ (52 - k) = 2 ^ 52).
  { rewrite <- pow2_split by lia. f_equal. lia. }
  assert (Hsplit' : 2 ^ (53 - d) * 2 ^ (d - 1) = 2 ^ 52).
  { rewrite <- pow2_split by lia. f_equal. lia. }
  unfold F64.add, SFadd, F64.one.
  replace (Z.min (- k) (-52)) with (-52) by lia.
  rewrite shl_align_le, shl_align_ge by lia. cbn [fst cond_Zopp].
  replace (- k - -52) with (52 - k) by lia.
  rewrite !Z2Pos.id by nia.
  replace (q * 2 ^ k * 2 ^ (52 - k) + 4503599627370496) with ((q + 1) * 2 ^ 52)
    by (change 4503599627370496 with (2 ^ 52); nia).
  destruct ((q + 1) * 2 ^ 52) as [|M|M] eqn:HM; [nia | | nia].
  cbn [binary_normalize].
  assert (Hdig : Z.pos (digits2_pos (Z.to_pos ((q + 1) * 2 ^ (53 - d)))) = 53).
  { rewrite (digits_shift (Z.to_pos (q + 1)) _ (53 - d)); [fold d; lia | lia |].
    rewrite !Z2Pos.id by nia. reflexivity. }
  apply binary_round_exact.
  - apply bounded_iff. rewrite Hdig. lia.
  - replace (Z.min (-52) (d - 53)) with (-52) by lia.
    rewrite Z.sub_diag, Z.mul_1_r, Z2Pos.id by nia.
    replace (d - 53 - -52) with (d - 1) by lia. rewrite <- HM. nia.
Qed.

Lemma uint64_of_add_one `{GoRuntime} q k :
  0 < q < 2 ^ 52 -> 0 <= k <= 52 ->
  uint64_of_float
    (F64.add (S754_finite false (Z.to_pos (q * 2 ^ k)) (- k)) F64.one)
  = q + 1.
Proof.
  intros Hq Hk. rewrite add_one_exact by assumption.
  set (d := Z.pos (digits2_pos (Z.to_pos (q + 1)))).
  assert (Hd : 1 <= d <= 53).
  { split; [subst d; lia|]. apply digits_le; [lia|]. rewrite Z2Pos.id by lia.
    change (2 ^ 53) with (2 * 2 ^ 52). lia. }
  replace (53 - d) with (- (d - 53)) by lia.
  apply uint64_of_integer; [lia|].
  change U64.modulus with (2 ^ 12 * 2 ^ 52). lia.
Qed.

(** The fractional part [r * 2^-k] against one half. *)
Lemma frac_compare r k :
  1 <= k <= 52 -> 0 <= r < 2 ^ k ->
  let frac := binary_normalize F64.prec F64.emax r (- k) false in
  F64.ltb F64.half frac = (2 ^ k <? 2 * r)
  /\ F64.eqb frac F64.half = (2 * r =? 2 ^ k).
Proof.
  intros Hk Hr. pose proof (pow2_pos k) as Hpk.
  destruct r as [|n|n]; [| |lia]; cbn [binary_normalize].
  - split.
    + symmetry. apply Z.ltb_ge. lia.
    + symmetry. apply Z.eqb_neq. lia.
  - assert (Hn53 : Z.pos n < 2 ^ 53).
    { assert (2 ^ k <= 2 ^ 53) by (apply Z.pow_le_mono_r; lia). lia. }
    rewrite binary_round_short by (assumption || lia).
    set (d := Z.pos (digits2_pos n)).
    assert (Hd : 1 <= d <= k).
    { split; [subst d; lia | apply digits_le; lia]. }
    pose proof (digits_bounds n) as [Hlo Hhi]. fold d in Hlo, Hhi.
    pose proof (pow2_pos (53 - d)) as Hp53. pose proof (pow2_pos (d - 1)) as Hpd.
    assert (Hsplit : 2 ^ (53 - d) * 2 ^ (d - 1) = 4503599627370496).
    { rewrite <- pow2_split by lia. replace (53 - d + (d - 1)) with 52 by lia.
      reflexivity. }
    rewrite ltb_half, eqb_half, Z2Pos.id by nia.
    destruct (Z.eq_dec d k) as [Hdk | Hdk].
    + assert (Hk2 : 2 ^ k = 2 * 2 ^ (d - 1)).
      { rewrite <- Z.pow_succ_r by lia. f_equal. lia. }
      replace (- k + d - 53 =? -53) with true by (symmetry; apply Z.eqb_eq; lia).
      replace (-53 <? - k + d - 53) with false by (symmetry; apply Z.ltb_ge; lia).
      cbn [orb andb]. split.
      * destruct (Z.ltb_spec (2 ^ k) (2 * Z.pos n)) as [Hc|Hc].
        -- apply Z.ltb_lt. nia.
        -- apply Z.ltb_ge. nia.
      * destruct (Z.eqb_spec (2 * Z.pos n) (2 ^ k)) as [Hc|Hc].
        -- apply Z.eqb_eq. nia.
        -- apply Z.eqb_neq. nia.
    + assert (Hk2 : 2 ^ d <= 2 ^ (k - 1)) by (apply Z.pow_le_mono_r; lia).
      assert (Hk3 : 2 ^ k = 2 * 2 ^ (k - 1)).
      { rewrite <- Z.pow_succ_r by lia. f_equal. lia. }
      replace (- k + d - 53 =? -53) with false by (symmetry; apply Z.eqb_neq; lia).
      replace (-53 <? - k + d - 53) with false by (symmetry; apply Z.ltb_ge; lia).
      cbn [orb andb]. split.
      * symmetry. apply Z.ltb_ge. lia.
      * symmetry. apply Z.eqb_neq. lia.
Qed.

Lemma sub_self m e :
  F64.sub (S754_finite false m e) (S754_finite false m e) = S754_zero false.
Proof. unfold F64.sub, SFsub. rewrite Z.sub_diag. reflexivity. Qed.

Lemma even_mod2 q : negb (q mod 2 =? 0) = negb (Z.even q).
Proof. rewrite Zmod_even. now destruct (Z.even q). Qed.

(** An integer: nothing to round. *)
Lemma rint_integer `{GoRuntime} m e :
  0 <= e -> Z.pos m * 2 ^ e < U64.modulus ->
  rint (S754_finite false m e) = Z.pos m * 2 ^ e.
Proof.
  intros He Hrange. rewrite rint_positive. unfold F64.Modf.
  replace (0 <=? e) with true by (symmetry; apply Z.leb_le; exact He).
  rewrite sub_self.
  change (F64.ltb F64.half (S754_zero false)) with false.
  change (F64.eqb (S754_zero false) F64.half) with false.
  cbn [orb andb].
  pose proof (pow2_pos e He).
  rewrite uint64_of_float_finite; rewrite Z.shiftl_mul_pow2 by exact He;
    [reflexivity | lia].
Qed.

(** Less than one half, one half, or between one half and one. *)
Lemma rint_below_one `{GoRuntime} m e :
  e <= -53 -> Z.pos m < 2 ^ 53 ->
  rint (S754_finite false m e) = roundHalfEven (Z.pos m) e.
Proof.
  intros He Hm.
  assert (Hpow : 2 ^ 53 <= 2 ^ (- e)) by (apply Z.pow_le_mono_r; lia).
  rewrite rint_positive, Modf_fraction by lia.
  unfold roundHalfEven.
  replace (0 <=? e) with false by (symmetry; apply Z.leb_gt; lia).
  rewrite Z.div_small, Z.mod_small by lia.
  cbn [Z.eqb Z.even]. rewrite ltb_half, eqb_half, uint64_of_float_zero.
  change (negb (0 mod 2 =? 0)) with false. rewrite andb_false_r, orb_false_r.
  destruct (Z.eq_dec e (-53)) as [-> | Hne].
  - change (2 ^ (- -53)) with 9007199254740992.
    change (-53 <? -53) with false. change (-53 =? -53) with true.
    cbn [orb andb].
    destruct (Z.ltb_spec 4503599627370496 (Z.pos m)) as [Hc|Hc].
    + replace (2 * Z.pos m ?= 9007199254740992) with Gt
        by (symmetry; apply Z.compare_gt_iff; lia).
      reflexivity.
    + destruct (Z.compare_spec (2 * Z.pos m) 9007199254740992); try reflexivity.
      lia.
  - replace (-53 <? e) with false by (symmetry; apply Z.ltb_ge; lia).
    replace (e =? -53) with false by (symmetry; apply Z.eqb_neq; lia).
    cbn [orb andb].
    assert (Hpow' : 2 ^ 54 <= 2 ^ (- e)) by (apply Z.pow_le_mono_r; lia).
    change (2 ^ 54) with (2 * 2 ^ 53) in Hpow'.
    replace (2 * Z.pos m ?= 2 ^ (- e)) with Lt
      by (symmetry; apply Z.compare_lt_iff; lia).
    reflexivity.
Qed.

(** At least one, with [k] bits below the binary point. *)
Lemma rint_fraction `{GoRuntime} m k :
  1 <= k <= 52 -> 2 ^ 52 <= Z.pos m < 2 ^ 53 ->
  rint (S754_finite false m (- k)) = roundHalfEven (Z.pos m) (- k).
Proof.
  intros Hk Hm. pose proof (pow2_pos k ltac:(lia)) as Hpk.
  pose proof (pow2_pos (52 - k) ltac:(lia)) as Hp52.
  assert (Hsplit : 2 ^ k * 2 ^ (52 - k) = 2 ^ 52).
  { rewrite <- pow2_split by lia. f_equal. lia. }
  rewrite rint_positive, Modf_fraction by lia.
  unfold roundHalfEven.
  replace (0 <=? - k) with false by (symmetry; apply Z.leb_gt; lia).
  rewrite Z.opp_involutive.
  pose proof (Z.div_mod (Z.pos m) (2 ^ k)) as Hdm.
  pose proof (Z.mod_pos_bound (Z.pos m) (2 ^ k) Hpk) as Hr.
  set (q := Z.pos m / 2 ^ k) in *. set (r := Z.pos m mod 2 ^ k) in *.
  specialize (Hdm ltac:(lia)).
  assert (Hq : 0 < q < 2 ^ 52).
  { change (2 ^ 53) with (2 * 2 ^ 52) in Hm.
    assert (HP2 : 2 ^ 1 <= 2 ^ k) by (apply Z.pow_le_mono_r; lia).
    assert (HP52 : 2 ^ k <= 2 ^ 52) by (apply Z.pow_le_mono_r; lia).
    change (2 ^ 1) with 2 in HP2. split.
    - destruct (Z.lt_ge_cases 0 q) as [|Hq0]; [assumption|]. exfalso.
      assert (2 ^ k * q <= 0) by nia. lia.
    - destruct (Z.lt_ge_cases q (2 ^ 52)) as [|Hq52]; [assumption|]. exfalso.
      assert (2 * 2 ^ 52 <= 2 ^ k * q) by nia. lia. }
  replace (q =? 0) with false by (symmetry; apply Z.eqb_neq; lia).
  destruct (frac_compare r k Hk Hr) as [Hlt Heq]. rewrite Hlt, Heq.
  assert (Hint : uint64_of_float
                   (S754_finite false (Z.to_pos (q * 2 ^ k)) (- k)) = q).
  { rewrite <- (Z.opp_involutive k) at 1. apply uint64_of_integer; [lia|].
    change U64.modulus with (2 ^ 12 * 2 ^ 52). lia. }
  rewrite Hint, even_mod2.
  destruct (Z.compare_spec (2 * r) (2 ^ k)) as [Hc | Hc | Hc].
  - replace (2 ^ k <? 2 * r) with false by (symmetry; apply Z.ltb_ge; lia).
    replace (2 * r =? 2 ^ k) with true by (symmetry; apply Z.eqb_eq; lia).
    cbn [orb andb]. destruct (Z.even q); cbn [negb].
    + exact Hint.
    + apply uint64_of_add_one; lia.
  - replace (2 ^ k <? 2 * r) with false by (symmetry; apply Z.ltb_ge; lia).
    replace (2 * r =? 2 ^ k) with false by (symmetry; apply Z.eqb_neq; lia).
    cbn [orb andb]. exact Hint.
  - replace (2 ^ k <? 2 * r) with true by (symmetry; apply Z.ltb_lt; lia).
    cbn [orb]. apply uint64_of_add_one; lia.
Qed.

Lemma rint_nonnegative `{GoRuntime} m e :
  bounded F64.prec F64.emax m e = true ->
  (0 <= e -> Z.pos m * 2 ^ e < U64.modulus) ->
  rint (S754_finite false m e) = roundHalfEven (Z.pos m) e.
Proof.
  intros Hb Hrange. apply bounded_iff in Hb as [Hcanon Hmax].
  pose proof (digits_bounds m) as [Hlo Hhi].
  set (d := Z.pos (digits2_pos m)) in *.
  destruct (Z.le_gt_cases 0 e) as [He | He].
  - rewrite rint_integer by auto. unfold roundHalfEven.
    replace (0 <=? e) with true by (symmetry; apply Z.leb_le; exact He).
    reflexivity.
  - assert (Hd : d <= 53) by lia.
    assert (Hm : Z.pos m < 2 ^ 53).
    { assert (2 ^ d <= 2 ^ 53) by (apply Z.pow_le_mono_r; lia). lia. }
    destruct (Z.le_gt_cases e (-53)) as [Hsmall | Hlarge].
    + apply rint_below_one; assumption.
    + assert (Hd53 : d = 53) by lia. rewrite Hd53 in Hlo.
      change (2 ^ (53 - 1)) with (2 ^ 52) in Hlo.
      rewrite <- (Z.opp_involutive e). apply rint_fraction; lia.
Qed.

(** The integer [roundHalfEven m e] is nearest to [m * 2^e], and even when
    [m * 2^e] is half way between two integers. *)
Lemma roundHalfEven_nearest m e :
  0 <= m -> e < 0 ->
  let n := roundHalfEven m e in
  2 * Z.abs (n * 2 ^ (- e) - m) <= 2 ^ (- e)
  /\ (2 * Z.abs (n * 2 ^ (- e) - m) = 2 ^ (- e) -> Z.even n = true).
Proof.
  intros Hm He. cbn zeta. unfold roundHalfEven.
  replace (0 <=? e) with false by (symmetry; apply Z.leb_gt; lia).
  pose proof (pow2_pos (- e) ltac:(lia)) as Hpow.
  pose proof (Z.div_mod m (2 ^ (- e)) ltac:(lia)) as Hdm.
  pose proof (Z.mod_pos_bound m (2 ^ (- e)) Hpow) as Hr.
  set (P := 2 ^ (- e)) in *. set (q := m / P) in *. set (r := m mod P) in *.
  destruct (Z.compare_spec (2 * r) P) as [Hc | Hc | Hc].
  - destruct (Z.even q) eqn:Heven.
    + replace (q * P - m) with (- r) by lia. split; [lia | auto].
    + replace ((q + 1) * P - m) with (P - r) by lia. split; [lia|].
      intros _. rewrite Z.even_add, Heven. reflexivity.
  - replace (q * P - m) with (- r) by lia. split; lia.
  - replace ((q + 1) * P - m) with (P - r) by lia. split; lia.
Qed.

(** C3, as the source has it. On every finite binary64 number [m * 2^e]
    that is positive and below 2^64, [rint] is round-half-to-even: it returns
    the integer nearest to its argument and, half way between two integers,
    the even one.  [rint(0) = 0], [rint(2.5) = 2] and [rint(3.5) = 4].  The
    result is an unsigned 64-bit integer whatever the argument, so it is
    never negative. *)
Theorem rint_round_half_even `{GoRuntime} m e :
  bounded F64.prec F64.emax m e = true ->
  (0 <= e -> Z.pos m * 2 ^ e < U64.modulus) ->
  let n := rint (S754_finite false m e) in
  n = roundHalfEven (Z.pos m) e
  /\ (0 <= e -> n = Z.pos m * 2 ^ e)
  /\ (e < 0 ->
      2 * Z.abs (n * 2 ^ (- e) - Z.pos m) <= 2 ^ (- e)
      /\ (2 * Z.abs (n * 2 ^ (- e) - Z.pos m) = 2 ^ (- e) -> Z.even n = true))
  /\ (forall s, rint (S754_zero s) = 0)
  /\ rint f2_5 = 2
  /\ rint f3_5 = 4
  /\ forall x, 0 <= rint x < U64.modulus.
Proof.
  intros Hb Hrange. cbn zeta. rewrite (rint_nonnegative m e Hb Hrange).
  split; [reflexivity|].
  split.
  { intros He. unfold roundHalfEven.
    replace (0 <=? e) with true by (symmetry; apply Z.leb_le; exact He).
    reflexivity. }
  split; [intros He; apply roundHalfEven_nearest; lia|].
  split; [intros s; reflexivity|]. split; [reflexivity|]. split; [reflexivity|].
  apply rint_range.
Qed.

Lemma rint_round_half_even_witness :
  @rint exampleRuntime (S754_finite false 5066549580791808 (-50)) = 4.
Proof.
  apply (@rint_round_half_even exampleRuntime 5066549580791808 (-50)).
  - reflexivity.
  - lia.
Defined.

(** C3, as the claim has it, fails: [rint(-2.5)] is not [-2], whatever the
    implementation does with the conversion of [-2.0] to [uint64]; where
    the conversion saturates, it is 0. *)
Lemma rint_negative_is_unsigned :
  (~ exists rt : GoRuntime, @rint rt fneg2_5 = -2)
  /\ @rint exampleRuntime fneg2_5 = 0.
Proof.
  split; [|reflexivity].
  intros [rt Hrt]. pose proof (@rint_range rt fneg2_5) as Hrange. lia.
Qed.

(** * Further properties of the calculator *)

(** ** Allow-lists *)

(** X1. A tax rule applies to a country and a product type exactly when its
    product types are empty or hold the product type, and its countries are
    empty or hold the country. *)
Theorem AppliesTo_iff (t : Tax.t) (country productType : string) :
  Tax.AppliesTo t country productType = true
  <-> typeAccepted (Tax.ProductTypes t) productType
      /\ typeAccepted (Tax.Countries t) country.
Proof.
  unfold Tax.AppliesTo, typeAccepted.
  destruct (Tax.ProductTypes t) as [|x l] eqn:Et;
    destruct (Tax.Countries t) as [|y k] eqn:Ec; cbn [negb].
  - split; [auto | reflexivity].
  - rewrite contains_In. split.
    + intros Hin. split; [now left | now right].
    + intros [_ [Hnil | Hin]]; [discriminate | exact Hin].
  - destruct (contains (x :: l) productType) eqn:E; cbn [negb].
    + apply contains_In in E. split; [auto | reflexivity].
    + split; [discriminate|]. intros [[Hnil | Hin] _]; [discriminate|].
      apply contains_In in Hin. congruence.
  - destruct (contains (x :: l) productType) eqn:E; cbn [negb].
    + apply contains_In in E. rewrite contains_In. split.
      * intros Hin. split; now right.
      * intros [_ [Hnil | Hin]]; [discriminate | exact Hin].
    + split; [discriminate|]. intros [[Hnil | Hin] _]; [discriminate|].
      apply contains_In in Hin. congruence.
Qed.

(** X2. A member discount is valid for a product SKU exactly when its
    product list is empty or holds the SKU. *)
Theorem ValidForProduct_iff (d : MemberDiscount.t) (productSku : string) :
  MemberDiscount.ValidForProduct d productSku = true
  <-> typeAccepted (MemberDiscount.Products d) productSku.
Proof.
  unfold MemberDiscount.ValidForProduct, typeAccepted.
  destruct (MemberDiscount.Products d) as [|x l] eqn:E.
  - split; [now left | reflexivity].
  - rewrite contains_In. split; [now right|].
    intros [Hnil | Hin]; [discriminate | exact Hin].
Qed.

(** ** Fixed member discounts *)

Lemma rint_of_zero `{GoRuntime} s : rint (S754_zero s) = 0.
Proof. reflexivity. Qed.

(** X3. The fixed discount of a member discount in a currency is that of
    the first entry in this currency, whatever entries follow: its amount
    times 100, rounded.  It is 0 when [ParseFloat] yields 0 for the amount,
    as it does for a string it cannot parse. *)
Theorem FixedDiscount_first_entry `{GoRuntime} (d : MemberDiscount.t)
    (currency : string) before entry after :
  MemberDiscount.FixedAmount d = before ++ entry :: after ->
  (forall e, In e before -> Currency e <> currency) ->
  Currency entry = currency ->
  MemberDiscount.FixedDiscount d currency
  = rint (F64.mul (ParseFloat (Amount entry)) F64.hundred)
  /\ 0 <= MemberDiscount.FixedDiscount d currency < U64.modulus
  /\ (forall s, ParseFloat (Amount entry) = S754_zero s ->
                MemberDiscount.FixedDiscount d currency = 0).
Proof.
  intros Hl Hbefore Hentry.
  assert (Hfirst : MemberDiscount.FixedDiscount d currency
                   = rint (F64.mul (ParseFloat (Amount entry)) F64.hundred)).
  { unfold MemberDiscount.FixedDiscount. rewrite Hl. clear Hl.
    induction before as [|e before IH]; cbn [app MemberDiscount.fixedDiscountIn].
    - rewrite Hentry, String.eqb_refl. reflexivity.
    - destruct (String.eqb_spec (Currency e) currency) as [Heq | Hne].
      + exfalso. apply (Hbefore e); [now left | exact Heq].
      + apply IH. intros e' He'. apply Hbefore. now right. }
  split; [exact Hfirst|]. split.
  - rewrite Hfirst. apply rint_range.
  - intros s Hzero. rewrite Hfirst, Hzero. reflexivity.
Qed.

Lemma FixedDiscount_first_entry_witness :
  @MemberDiscount.FixedDiscount exampleRuntime
    {| MemberDiscount.Claims := ∅; MemberDiscount.Percentage := 0;
       MemberDiscount.FixedAmount :=
         [ {| Amount := "1.00"; Currency := "EUR" |};
           {| Amount := "2.50"; Currency := "USD" |};
           {| Amount := "9.99"; Currency := "USD" |} ];
       MemberDiscount.ProductTypes := []; MemberDiscount.Products := [] |}
    "USD"
  = 250.
Proof.
  apply (@FixedDiscount_first_entry exampleRuntime _ "USD"
           [ {| Amount := "1.00"; Currency := "EUR" |} ]
           {| Amount := "2.50"; Currency := "USD" |}
           [ {| Amount := "9.99"; Currency := "USD" |} ]).
  - reflexivity.
  - intros e [<- | []]. discriminate.
  - reflexivity.
Defined.

(** X4. A member discount without an entry in the wanted currency (in
    particular one without fixed amounts) has fixed discount 0. *)
Theorem FixedDiscount_no_entry `{GoRuntime} (d : MemberDiscount.t)
    (currency : string) :
  (forall e, In e (MemberDiscount.FixedAmount d) -> Currency e <> currency) ->
  MemberDiscount.FixedDiscount d currency = 0.
Proof.
  unfold MemberDiscount.FixedDiscount.
  induction (MemberDiscount.FixedAmount d) as [|e l IH]; intros Hnone.
  - reflexivity.
  - cbn [MemberDiscount.fixedDiscountIn].
    destruct (String.eqb_spec (Currency e) currency) as [Heq | Hne].
    + exfalso. apply (Hnone e); [now left | exact Heq].
    + apply IH. intros e' He'. apply Hnone. now right.
Qed.

Lemma FixedDiscount_no_entry_witness :
  @MemberDiscount.FixedDiscount exampleRuntime goldMembers "EUR" = 0.
Proof.
  apply (@FixedDiscount_no_entry exampleRuntime goldMembers "EUR").
  intros e [<- | []]. discriminate.
Defined.

(** ** Arithmetic modulo 2^64 *)

Lemma wrap_in_wrap a a' :
  U64.wrap a = U64.wrap a' -> U64.wrap (U64.wrap a) = U64.wrap a'.
Proof. intros <-. unfold U64.wrap. apply Z.mod_mod. discriminate. Qed.

Lemma wrap_in_add a a' b b' :
  U64.wrap a = U64.wrap a' -> U64.wrap b = U64.wrap b' ->
  U64.wrap (a + b) = U64.wrap (a' + b').
Proof.
  unfold U64.wrap. intros Ha Hb.
  rewrite (Z.add_mod a), (Z.add_mod a'), Ha, Hb by discriminate. reflexivity.
Qed.

Lemma wrap_in_sub a a' b b' :
  U64.wrap a = U64.wrap a' -> U64.wrap b = U64.wrap b' ->
  U64.wrap (a - b) = U64.wrap (a' - b').
Proof.
  unfold U64.wrap. intros Ha Hb.
  rewrite (Zminus_mod a), (Zminus_mod a'), Ha, Hb. reflexivity.
Qed.

Lemma wrap_in_mul a a' b b' :
  U64.wrap a = U64.wrap a' -> U64.wrap b = U64.wrap b' ->
  U64.wrap (a * b) = U64.wrap (a' * b').
Proof.
  unfold U64.wrap. intros Ha Hb.
  rewrite (Z.mul_mod a), (Z.mul_mod a'), Ha, Hb by discriminate. reflexivity.
Qed.

(** [wrap_free t] proves [U64.wrap t = U64.wrap t'], where [t'] is [t]
    without the reductions inside it. *)
Ltac wrap_free t :=
  lazymatch t with
  | U64.wrap ?a =>
      let p := wrap_free a in constr:(wrap_in_wrap _ _ p)
  | (?a + ?b)%Z =>
      let p := wrap_free a in
      let q := wrap_free b in constr:(wrap_in_add _ _ _ _ p q)
  | (?a - ?b)%Z =>
      let p := wrap_free a in
      let q := wrap_free b in constr:(wrap_in_sub _ _ _ _ p q)
  | (?a * ?b)%Z =>
      let p := wrap_free a in
      let q := wrap_free b in constr:(wrap_in_mul _ _ _ _ p q)
  | _ => constr:(eq_refl (U64.wrap t))
  end.

(** Equations between reduced sums, differences and products. *)
Ltac push_wrap :=
  unfold U64.add, U64.sub, U64.mul;
  lazymatch goal with
  | |- U64.wrap ?x = U64.wrap ?y =>
      let p := wrap_free x in
      let q := wrap_free y in
      etransitivity; [exact p|];
      symmetry; etransitivity; [exact q|];
      f_equal; ring
  end.

(** ** The order as a whole *)

Lemma sumZ_app l1 l2 : sumZ (l1 ++ l2) = sumZ l1 + sumZ l2.
Proof.
  unfold sumZ. induction l1 as [|x l1 IH]; cbn [app fold_right]; [reflexivity|].
  rewrite IH. lia.
Qed.

Lemma weighted_app_list field l1 l2 :
  weighted field (l1 ++ l2) = weighted field l1 + weighted field l2.
Proof. unfold weighted. now rewrite map_app, sumZ_app. Qed.

Lemma sumZ_Permutation l l' : Permutation l l' -> sumZ l = sumZ l'.
Proof.
  unfold sumZ. induction 1 as [|x l l' _ IH|x y l|l l' l'' _ IH1 _ IH2];
    cbn [fold_right]; lia.
Qed.

Lemma weighted_Permutation field l l' :
  Permutation l l' -> weighted field l = weighted field l'.
Proof.
  intros Hperm. unfold weighted. apply sumZ_Permutation.
  now apply Permutation_map.
Qed.

Lemma CalculatePrice_aggregates `{GoRuntime} settings jwtClaims country currency
    coupon items :
  let p := CalculatePrice settings jwtClaims country currency coupon items in
  let l := map (itemPriceOf settings jwtClaims country currency coupon) items in
  Price.Items p = l
  /\ Price.Subtotal p = U64.wrap (weighted ItemPrice.Subtotal l)
  /\ Price.Discount p = U64.wrap (weighted ItemPrice.Discount l)
  /\ Price.Taxes p = U64.wrap (weighted ItemPrice.Taxes l)
  /\ Price.Total p
     = U64.wrap (weighted ItemPrice.Subtotal l - weighted ItemPrice.Discount l
                 + weighted ItemPrice.Taxes l).
Proof.
  cbn zeta.
  assert (Hempty : consistent emptyPrice).
  { unfold consistent. repeat split. }
  pose proof (loop_consistent
                (itemPriceOf settings jwtClaims country currency coupon) items
                emptyPrice Hempty) as (Hs & Hd & Ht).
  rewrite loop_items in Hs, Hd, Ht. cbn [emptyPrice Price.Items app] in Hs, Hd, Ht.
  split; [apply CalculatePrice_items|].
  unfold CalculatePrice.
  cbn [Price.Subtotal Price.Discount Price.Taxes Price.Total].
  rewrite Hs, Hd, Ht. repeat split. push_wrap.
Qed.

(** X5. The price of two lists of items put together has the item prices of
    both, in order, and each of its four amounts is the sum, modulo 2^64,
    of the amounts of the two prices. *)
Theorem CalculatePrice_app `{GoRuntime} settings jwtClaims country currency
    coupon items1 items2 :
  let price l := CalculatePrice settings jwtClaims country currency coupon l in
  Price.Items (price (items1 ++ items2))
  = Price.Items (price items1) ++ Price.Items (price items2)
  /\ Price.Subtotal (price (items1 ++ items2))
     = U64.add (Price.Subtotal (price items1)) (Price.Subtotal (price items2))
  /\ Price.Discount (price (items1 ++ items2))
     = U64.add (Price.Discount (price items1)) (Price.Discount (price items2))
  /\ Price.Taxes (price (items1 ++ items2))
     = U64.add (Price.Taxes (price items1)) (Price.Taxes (price items2))
  /\ Price.Total (price (items1 ++ items2))
     = U64.add (Price.Total (price items1)) (Price.Total (price items2)).
Proof.
  cbn zeta.
  destruct (CalculatePrice_aggregates settings jwtClaims country currency
              coupon (items1 ++ items2)) as (Hi & Hs & Hd & Ht & Htot).
  destruct (CalculatePrice_aggregates settings jwtClaims country currency
              coupon items1) as (Hi1 & Hs1 & Hd1 & Ht1 & Htot1).
  destruct (CalculatePrice_aggregates settings jwtClaims country currency
              coupon items2) as (Hi2 & Hs2 & Hd2 & Ht2 & Htot2).
  rewrite Hi, Hs, Hd, Ht, Htot, Hi1, Hs1, Hd1, Ht1, Htot1, Hi2, Hs2, Hd2, Ht2,
    Htot2.
  rewrite map_app, !weighted_app_list.
  repeat split; push_wrap.
Qed.

(** X6. The four amounts of the order do not depend on the order of the
    items: reordered items give the same subtotal, discount, taxes and total,
    and the same item prices, reordered. *)
Theorem CalculatePrice_Permutation `{GoRuntime} settings jwtClaims country
    currency coupon items items' :
  Permutation items items' ->
  let p := CalculatePrice settings jwtClaims country currency coupon items in
  let p' := CalculatePrice settings jwtClaims country currency coupon items' in
  Permutation (Price.Items p) (Price.Items p')
  /\ Price.Subtotal p = Price.Subtotal p'
  /\ Price.Discount p = Price.Discount p'
  /\ Price.Taxes p = Price.Taxes p'
  /\ Price.Total p = Price.Total p'.
Proof.
  intros Hperm. cbn zeta.
  destruct (CalculatePrice_aggregates settings jwtClaims country currency
              coupon items) as (Hi & Hs & Hd & Ht & Htot).
  destruct (CalculatePrice_aggregates settings jwtClaims country currency
              coupon items') as (Hi' & Hs' & Hd' & Ht' & Htot').
  rewrite Hi, Hs, Hd, Ht, Htot, Hi', Hs', Hd', Ht', Htot'.
  pose proof (Permutation_map
                (itemPriceOf settings jwtClaims country currency coupon) Hperm)
    as Hmap.
  rewrite (weighted_Permutation ItemPrice.Subtotal _ _ Hmap),
    (weighted_Permutation ItemPrice.Discount _ _ Hmap),
    (weighted_Permutation ItemPrice.Taxes _ _ Hmap).
  repeat split. exact Hmap.
Qed.

Lemma CalculatePrice_Permutation_witness :
  Price.Total
    (@CalculatePrice exampleRuntime (Some bookSettings) goldClaims "DE" "USD"
       None [plainItem 1000; vatItem; bundle])
  = Price.Total
      (@CalculatePrice exampleRuntime (Some bookSettings) goldClaims "DE" "USD"
         None [bundle; plainItem 1000; vatItem]).
Proof.
  apply (@CalculatePrice_Permutation exampleRuntime (Some bookSettings)
           goldClaims "DE" "USD" None [plainItem 1000; vatItem; bundle]
           [bundle; plainItem 1000; vatItem]).
  change [plainItem 1000; vatItem; bundle]
    with ([plainItem 1000; vatItem] ++ [bundle]).
  apply Permutation_app_comm.
Defined.

(** What the loop keeps true of the total it adds up. *)
Lemma loop_total {A} (f : A -> ItemPrice.t) items p :
  (forall item,
      ItemPrice.Total (f item)
      = U64.add (U64.sub (ItemPrice.Subtotal (f item))
                   (ItemPrice.Discount (f item)))
          (ItemPrice.Taxes (f item))) ->
  Price.Total p
  = U64.add (U64.sub (Price.Subtotal p) (Price.Discount p)) (Price.Taxes p) ->
  let p' := fold_left (fun price item => addItemPrice price (f item)) items p in
  Price.Total p'
  = U64.add (U64.sub (Price.Subtotal p') (Price.Discount p')) (Price.Taxes p').
Proof.
  intros Hf. revert p. induction items as [|item items IH]; intros p Hp.
  - exact Hp.
  - cbn [fold_left]. apply IH. unfold addItemPrice.
    cbn [Price.Total Price.Subtotal Price.Discount Price.Taxes].
    rewrite Hp, Hf. push_wrap.
Qed.

Lemma loop_weighted_total {A} (f : A -> ItemPrice.t) items p :
  Price.Total p = U64.wrap (weighted ItemPrice.Total (Price.Items p)) ->
  let p' := fold_left (fun price item => addItemPrice price (f item)) items p in
  Price.Total p' = U64.wrap (weighted ItemPrice.Total (Price.Items p')).
Proof.
  revert p. induction items as [|item items IH]; intros p Hp.
  - exact Hp.
  - cbn [fold_left]. apply IH. unfold addItemPrice.
    cbn [Price.Total Price.Items]. rewrite Hp, weighted_app. push_wrap.
Qed.

(** X7. The total that the loop of [CalculatePrice] adds up item by item
    is already Subtotal - Discount + Taxes modulo 2^64: the assignment of
    line 219 leaves the price as the loop built it, and the total of the
    order is the sum over the items of their total times their quantity. *)
Theorem total_is_sum_of_item_totals `{GoRuntime} settings jwtClaims country
    currency coupon items :
  let p := CalculatePrice settings jwtClaims country currency coupon items in
  p = priceAfterLoop settings jwtClaims country currency coupon items
  /\ Price.Total p = U64.wrap (weighted ItemPrice.Total (Price.Items p)).
Proof.
  cbn zeta.
  pose proof (loop_total
                (itemPriceOf settings jwtClaims country currency coupon) items
                emptyPrice
                (itemPriceOf_Total settings jwtClaims country currency coupon)
                eq_refl) as Htotal.
  pose proof (loop_weighted_total
                (itemPriceOf settings jwtClaims country currency coupon) items
                emptyPrice eq_refl) as Hsum.
  cbn zeta in Htotal, Hsum.
  assert (Heq : CalculatePrice settings jwtClaims country currency coupon items
                = priceAfterLoop settings jwtClaims country currency coupon
                    items).
  { unfold CalculatePrice, priceAfterLoop. rewrite <- Htotal.
    now destruct (fold_left _ items emptyPrice). }
  split; [exact Heq|]. rewrite Heq. exact Hsum.
Qed.

(** ** What the price of an item depends on *)

Lemma itemPriceOf_eq `{GoRuntime} settings settings' jwtClaims jwtClaims'
    country country' currency currency' coupon coupon' item item' :
  includeTaxesOf settings = includeTaxesOf settings' ->
  GetQuantity item = GetQuantity item' ->
  PriceInLowestUnit item = PriceInLowestUnit item' ->
  taxAmountsOf settings country item = taxAmountsOf settings' country' item' ->
  (forall subtotal taxes,
      couponDiscount coupon currency item subtotal taxes
        (includeTaxesOf settings)
      = couponDiscount coupon' currency' item' subtotal taxes
          (includeTaxesOf settings)) ->
  (forall subtotal taxes discount,
      addMemberDiscounts settings jwtClaims currency item subtotal taxes
        (includeTaxesOf settings) discount
      = addMemberDiscounts settings' jwtClaims' currency' item' subtotal taxes
          (includeTaxesOf settings) discount) ->
  itemPriceOf settings jwtClaims country currency coupon item
  = itemPriceOf settings' jwtClaims' country' currency' coupon' item'.
Proof.
  intros Hinc Hq Hp Htax Hcoupon Hmember. unfold itemPriceOf.
  rewrite <- Hinc, <- Hq, <- Hp, <- Htax.
  destruct (applyTaxes _ _ _) as [subtotal taxes].
  now rewrite Hcoupon, Hmember.
Qed.

Lemma CalculatePrice_ext `{GoRuntime} settings settings' jwtClaims jwtClaims'
    country country' currency currency' coupon coupon' items :
  (forall item,
      In item items ->
      itemPriceOf settings jwtClaims country currency coupon item
      = itemPriceOf settings' jwtClaims' country' currency' coupon' item) ->
  CalculatePrice settings jwtClaims country currency coupon items
  = CalculatePrice settings' jwtClaims' country' currency' coupon' items.
Proof.
  intros Hitems. unfold CalculatePrice.
  assert (Hloop : forall p,
            fold_left
              (fun price item =>
                 addItemPrice price
                   (itemPriceOf settings jwtClaims country currency coupon item))
              items p
            = fold_left
                (fun price item =>
                   addItemPrice price
                     (itemPriceOf settings' jwtClaims' country' currency'
                        coupon' item))
                items p).
  { induction items as [|item items IH]; intros p; [reflexivity|].
    cbn [fold_left]. rewrite (Hitems item) by now left.
    apply IH. intros item' Hin. apply Hitems. now right. }
  now rewrite Hloop.
Qed.

(** ** Prices without taxes *)

Lemma addTax_exclusive_loop `{GoRuntime} amounts subtotal taxes :
  0 <= taxes < U64.modulus ->
  fold_left (addTax false) amounts (subtotal, taxes)
  = (subtotal,
     U64.wrap
       (taxes
        + sumZ (map (fun a => taxOn (price a) (percentage a)) amounts))).
Proof.
  revert taxes. induction amounts as [|a amounts IH]; intros taxes Htaxes.
  - cbn. now rewrite Z.add_0_r, wrap_small.
  - cbn [fold_left addTax]. rewrite IH by apply wrap_range.
    f_equal. unfold sumZ. cbn [map fold_right]. fold (taxOn (price a) (percentage a)).
    push_wrap.
Qed.

Lemma applyTaxes_exclusive `{GoRuntime} subtotal amounts :
  applyTaxes false subtotal amounts
  = (subtotal,
     U64.wrap (sumZ (map (fun a => taxOn (price a) (percentage a)) amounts))).
Proof.
  unfold applyTaxes. destruct amounts as [|a amounts]; [reflexivity|].
  rewrite addTax_exclusive_loop by (split; [lia | reflexivity]).
  reflexivity.
Qed.

(** X8. When prices do not include taxes (and also without settings), the
    subtotal of an item is its unit price, whatever taxes apply, and its
    taxes are the sum, modulo 2^64, of the taxes on its taxable amounts. *)
Theorem exclusive_item_price `{GoRuntime} settings jwtClaims country currency
    coupon item :
  includeTaxesOf settings = false ->
  let ip := itemPriceOf settings jwtClaims country currency coupon item in
  ItemPrice.Quantity ip = GetQuantity item
  /\ ItemPrice.Subtotal ip = PriceInLowestUnit item
  /\ ItemPrice.Taxes ip
     = U64.wrap
         (sumZ (map (fun a => taxOn (price a) (percentage a))
                  (taxAmountsOf settings country item))).
Proof.
  intros Hinc. cbn zeta.
  rewrite itemPriceOf_Subtotal, itemPriceOf_Taxes, Hinc, applyTaxes_exclusive.
  repeat split. unfold itemPriceOf. now destruct (applyTaxes _ _ _).
Qed.

Lemma exclusive_item_price_witness :
  ItemPrice.Subtotal
    (@itemPriceOf exampleRuntime (Some bookSettings) goldClaims "DE" "USD" None
       bundle)
  = 1500.
Proof.
  apply (@exclusive_item_price exampleRuntime (Some bookSettings) goldClaims
           "DE" "USD" None bundle).
  reflexivity.
Defined.

Lemma subItem_amounts_eq s country (l k : list Item) :
  map PriceInLowestUnit l = map PriceInLowestUnit k ->
  map ProductType l = map ProductType k ->
  map (fun sub => {| price := PriceInLowestUnit sub;
                     percentage := subItemPercentage s country sub |}) l
  = map (fun sub => {| price := PriceInLowestUnit sub;
                       percentage := subItemPercentage s country sub |}) k.
Proof.
  revert k. induction l as [|a l IH]; intros [|b k] Hprices Htypes;
    try discriminate; [reflexivity|].
  cbn [map] in *. injection Hprices as Hp Hps. injection Htypes as Ht Hts.
  f_equal; [|now apply IH].
  unfold subItemPercentage. now rewrite Hp, Ht.
Qed.

(** X9. An item without fixed VAT that has taxable sub-items is taxed
    through them alone: one taxable amount per sub-item, in order, made of
    the unit price of the sub-item and the percentage of the first rule that
    applies to the product type of the sub-item (0 when none does).  The
    product type of the item itself, and the fixed VAT, quantity, SKU and own
    sub-items of the sub-items, have no effect. *)
Theorem bundle_tax_amounts (s : Settings.t) (country : string) (item : Item) :
  FixedVAT item = 0 ->
  TaxableItems item <> [] ->
  taxAmountsOf (Some s) country item
  = map (fun sub => {| price := PriceInLowestUnit sub;
                       percentage := subItemPercentage s country sub |})
      (TaxableItems item)
  /\ forall item',
       FixedVAT item' = 0 ->
       map PriceInLowestUnit (TaxableItems item')
       = map PriceInLowestUnit (TaxableItems item) ->
       map ProductType (TaxableItems item')
       = map ProductType (TaxableItems item) ->
       taxAmountsOf (Some s) country item' = taxAmountsOf (Some s) country item.
Proof.
  intros Hvat Hsub.
  assert (Hshape : forall it,
             FixedVAT it = 0 -> TaxableItems it <> [] ->
             taxAmountsOf (Some s) country it
             = map (fun sub => {| price := PriceInLowestUnit sub;
                                  percentage := subItemPercentage s country sub |})
                 (TaxableItems it)).
  { intros it Hv Hs. unfold taxAmountsOf. rewrite Hv. cbn [Z.eqb negb].
    destruct (TaxableItems it) as [|sub subs]; [contradiction | reflexivity]. }
  split; [now apply Hshape|].
  intros item' Hvat' Hprices Htypes.
  assert (Hsub' : TaxableItems item' <> []).
  { intros Hnil. rewrite Hnil in Hprices. destruct (TaxableItems item);
      [contradiction | discriminate]. }
  rewrite !Hshape by assumption.
  now apply subItem_amounts_eq.
Qed.

Lemma bundle_tax_amounts_witness :
  taxAmountsOf (Some bookSettings) "DE" bundle
  = [ {| price := 1000; percentage := 7 |};
      {| price := 500; percentage := 20 |} ].
Proof.
  apply (proj1 (bundle_tax_amounts bookSettings "DE" bundle eq_refl
                  ltac:(discriminate))).
Defined.

(** ** Discounts *)

Lemma addMemberDiscounts_nil_claims `{GoRuntime} settings currency item
    subtotal taxes inc discount :
  addMemberDiscounts settings None currency item subtotal taxes inc discount
  = discount.
Proof.
  unfold addMemberDiscounts. destruct settings as [s|]; [|reflexivity].
  cbn [memberDiscountApplies]. apply stacking_loop_none.
Qed.

Lemma applyTaxes_Taxes_range `{GoRuntime} inc subtotal amounts :
  0 <= snd (applyTaxes inc subtotal amounts) < U64.modulus.
Proof.
  unfold applyTaxes. destruct amounts as [|a l]; [cbn; split; [lia|reflexivity]|].
  assert (Hfold : forall l acc, 0 <= snd acc < U64.modulus ->
                    0 <= snd (fold_left (addTax inc) l acc) < U64.modulus).
  { clear. intros l. induction l as [|b l IH]; intros acc Hacc; [exact Hacc|].
    cbn [fold_left]. apply IH. destruct acc as [s t]. unfold addTax.
    cbn [snd]. apply wrap_range. }
  apply Hfold. cbn [snd]. split; [lia | reflexivity].
Qed.

(** X10. An item without fixed VAT and without sub-items to which no tax
    rule applies, priced without coupon and without claims, has no taxes and
    no discount: its subtotal and its total are its unit price. *)
Theorem untaxed_undiscounted_item `{GoRuntime} (s : Settings.t)
    (country currency : string) (item : Item) :
  FixedVAT item = 0 ->
  TaxableItems item = [] ->
  (forall t, In t (Settings.Taxes s) ->
             Tax.AppliesTo t country (ProductType item) = false) ->
  0 <= PriceInLowestUnit item < U64.modulus ->
  itemPriceOf (Some s) None country currency None item
  = {| ItemPrice.Quantity := GetQuantity item;
       ItemPrice.Subtotal := PriceInLowestUnit item;
       ItemPrice.Discount := 0;
       ItemPrice.Taxes := 0;
       ItemPrice.Total := PriceInLowestUnit item |}.
Proof.
  intros Hvat Hsub Hnone Hprice. unfold itemPriceOf.
  rewrite taxAmountsOf_plain, firstApplicable_none by assumption.
  cbn [applyTaxes couponDiscount]. rewrite addMemberDiscounts_nil_claims.
  unfold U64.sub, U64.add. rewrite Z.sub_0_r, Z.add_0_r.
  rewrite !(wrap_small (PriceInLowestUnit item)) by exact Hprice.
  replace (PriceInLowestUnit item <? 0) with false
    by (symmetry; apply Z.ltb_ge; lia).
  reflexivity.
Qed.

Lemma untaxed_undiscounted_item_witness :
  ItemPrice.Total
    (@itemPriceOf exampleRuntime
       (Some {| Settings.PricesIncludeTaxes := true;
                Settings.Taxes := [tax7books];
                Settings.MemberDiscounts := [goldMembers] |})
       None "FR" "USD" None (plainItem 1000))
  = 1000.
Proof.
  rewrite (@untaxed_undiscounted_item exampleRuntime
             {| Settings.PricesIncludeTaxes := true;
                Settings.Taxes := [tax7books];
                Settings.MemberDiscounts := [goldMembers] |}
             "FR" "USD" (plainItem 1000) eq_refl eq_refl).
  - reflexivity.
  - intros t [<- | []]. reflexivity.
  - cbn. split; [lia | reflexivity].
Defined.

(** X11. [CalculatePrice] never asks a coupon whether it is valid for a
    price: two coupons that differ at most in [ValidForPrice] give the same
    price. *)
Theorem ValidForPrice_ignored `{GoRuntime} settings jwtClaims country currency
    (c c' : Coupon.t) items :
  sameButValidForPrice c c' ->
  CalculatePrice settings jwtClaims country currency (Some c) items
  = CalculatePrice settings jwtClaims country currency (Some c') items.
Proof.
  intros (Ht & Hp & Hpct & Hfix). apply CalculatePrice_ext. intros item _.
  apply itemPriceOf_eq; try reflexivity.
  intros subtotal taxes. unfold couponDiscount.
  now rewrite Ht, Hp, Hpct, Hfix.
Qed.

Lemma ValidForPrice_ignored_witness :
  @CalculatePrice exampleRuntime (Some bookSettings) goldClaims "DE" "USD"
    (Some (tenPercentCoupon (fun _ _ => true))) [plainItem 1000; bundle]
  = @CalculatePrice exampleRuntime (Some bookSettings) goldClaims "DE" "USD"
      (Some (tenPercentCoupon (fun _ _ => false))) [plainItem 1000; bundle].
Proof.
  apply (@ValidForPrice_ignored exampleRuntime).
  repeat split.
Defined.

(** X12. A coupon counts for an item only if it is valid both for the
    product type and for the SKU of the item: otherwise the price of the
    item is the one it has without any coupon. *)
Theorem invalid_coupon_is_no_coupon `{GoRuntime} settings jwtClaims country
    currency (c : Coupon.t) item :
  Coupon.ValidForType c (ProductType item) = false
  \/ Coupon.ValidForProduct c (ProductSku item) = false ->
  itemPriceOf settings jwtClaims country currency (Some c) item
  = itemPriceOf settings jwtClaims country currency None item.
Proof.
  intros Hinvalid. apply itemPriceOf_eq; try reflexivity.
  intros subtotal taxes. unfold couponDiscount.
  destruct Hinvalid as [-> | ->]; [reflexivity|].
  now rewrite andb_false_r.
Qed.

Lemma invalid_coupon_is_no_coupon_witness :
  @itemPriceOf exampleRuntime (Some bookSettings) goldClaims "DE" "USD"
    (Some (tenPercentCoupon (fun _ _ => true))) bundle
  = @itemPriceOf exampleRuntime (Some bookSettings) goldClaims "DE" "USD" None
      bundle.
Proof.
  apply (@invalid_coupon_is_no_coupon exampleRuntime).
  left. reflexivity.
Defined.

Lemma couponDiscount_le_base `{GoRuntime} coupon currency item subtotal taxes
    inc :
  0 <= subtotal -> 0 <= taxes ->
  couponDiscount coupon currency item subtotal taxes inc
  <= (if inc then subtotal + taxes else subtotal).
Proof.
  intros Hs Ht. unfold couponDiscount.
  destruct coupon as [c|]; [|destruct inc; lia].
  destruct (_ && _); [|destruct inc; lia].
  etransitivity; [apply calculateDiscount_le_base|].
  destruct inc; [apply wrap_le; lia | lia].
Qed.

(** X13. Without claims no member discount is added, and the coupon alone
    cannot bring the total of an item below zero: the discount is at most
    the subtotal (plus the taxes when prices include taxes), and the total
    is Subtotal - Discount + Taxes, with no wrap-around, as long as
    Subtotal + Taxes is below 2^64. *)
Theorem coupon_alone_never_wraps `{GoRuntime} settings country currency coupon
    item :
  0 <= PriceInLowestUnit item ->
  let ip := itemPriceOf settings None country currency coupon item in
  ItemPrice.Subtotal ip + ItemPrice.Taxes ip < U64.modulus ->
  0 <= ItemPrice.Discount ip
       <= (if includeTaxesOf settings
           then ItemPrice.Subtotal ip + ItemPrice.Taxes ip
           else ItemPrice.Subtotal ip)
  /\ ItemPrice.Total ip
     = ItemPrice.Subtotal ip - ItemPrice.Discount ip + ItemPrice.Taxes ip.
Proof.
  intros Hprice. cbn zeta.
  pose proof (itemPriceOf_Total settings None country currency coupon item)
    as Htotal.
  pose proof (itemPriceOf_Discount settings None country currency coupon item)
    as Hdiscount.
  cbn zeta in Htotal, Hdiscount.
  rewrite addMemberDiscounts_nil_claims in Hdiscount.
  assert (Hs : 0 <= ItemPrice.Subtotal
                      (itemPriceOf settings None country currency coupon item)).
  { rewrite itemPriceOf_Subtotal. now apply applyTaxes_Subtotal_nonneg. }
  assert (Ht : 0 <= ItemPrice.Taxes
                      (itemPriceOf settings None country currency coupon item)).
  { rewrite itemPriceOf_Taxes. apply applyTaxes_Taxes_range. }
  set (ip := itemPriceOf settings None country currency coupon item) in *.
  intros Hsum.
  pose proof (couponDiscount_le_base coupon currency item
                (ItemPrice.Subtotal ip) (ItemPrice.Taxes ip)
                (includeTaxesOf settings) Hs Ht) as Hle.
  pose proof (couponDiscount_range coupon currency item (ItemPrice.Subtotal ip)
                (ItemPrice.Taxes ip) (includeTaxesOf settings) Hs) as Hrange.
  rewrite <- Hdiscount in Hle, Hrange.
  split; [lia|].
  rewrite Htotal. unfold U64.add, U64.sub. rewrite wrap_add_l.
  apply wrap_small. destruct (includeTaxesOf settings); lia.
Qed.

Lemma coupon_alone_never_wraps_witness :
  ItemPrice.Total
    (@itemPriceOf exampleRuntime (Some bookSettings) None "DE" "USD"
       (Some (tenPercentCoupon (fun _ _ => true))) (plainItem 1000))
  = 1000 - 100 + 70.
Proof.
  destruct (@coupon_alone_never_wraps exampleRuntime (Some bookSettings) "DE"
              "USD" (Some (tenPercentCoupon (fun _ _ => true)))
              (plainItem 1000) ltac:(cbn; lia) ltac:(vm_compute; reflexivity))
    as [_ Htotal].
  rewrite Htotal. reflexivity.
Defined.

(** ** What the country, the currency and the claims are used for *)

Lemma contains_same l a b :
  (In a l <-> In b l) -> contains l a = contains l b.
Proof.
  intros Hiff.
  destruct (contains l a) eqn:Ea; destruct (contains l b) eqn:Eb;
    try reflexivity.
  - apply contains_In, Hiff, contains_In in Ea. congruence.
  - apply contains_In, Hiff, contains_In in Eb. congruence.
Qed.

Lemma firstApplicable_same_countries taxes country country' productType :
  (forall t, In t taxes ->
             (In country (Tax.Countries t) <-> In country' (Tax.Countries t))) ->
  firstApplicable taxes country productType
  = firstApplicable taxes country' productType.
Proof.
  induction taxes as [|t taxes IH]; intros Hsame; [reflexivity|].
  cbn [firstApplicable].
  assert (Happ : Tax.AppliesTo t country productType
                 = Tax.AppliesTo t country' productType).
  { unfold Tax.AppliesTo.
    rewrite (contains_same (Tax.Countries t) country country')
      by (apply Hsame; now left).
    reflexivity. }
  rewrite Happ, IH; [reflexivity|].
  intros t' Ht'. apply Hsame. now right.
Qed.

(** X14. The country is used for nothing but the countries of the tax
    rules: two countries that the same tax rules name (for instance when no
    rule names a country) give the same price. *)
Theorem country_only_selects_taxes `{GoRuntime} (s : Settings.t) jwtClaims
    country country' currency coupon items :
  (forall t, In t (Settings.Taxes s) ->
             (In country (Tax.Countries t) <-> In country' (Tax.Countries t))) ->
  CalculatePrice (Some s) jwtClaims country currency coupon items
  = CalculatePrice (Some s) jwtClaims country' currency coupon items.
Proof.
  intros Hsame. apply CalculatePrice_ext. intros item _.
  apply itemPriceOf_eq; try reflexivity.
  unfold taxAmountsOf. destruct (negb (FixedVAT item =? 0)); [reflexivity|].
  destruct (TaxableItems item) as [|sub subs].
  - now rewrite (firstApplicable_same_countries _ country country').
  - apply map_ext. intros a.
    now rewrite (firstApplicable_same_countries _ country country').
Qed.

Lemma country_only_selects_taxes_witness :
  @CalculatePrice exampleRuntime (Some bookSettings) goldClaims "FR" "USD" None
    [plainItem 1000; bundle]
  = @CalculatePrice exampleRuntime (Some bookSettings) goldClaims "US" "USD"
      None [plainItem 1000; bundle].
Proof.
  apply (@country_only_selects_taxes exampleRuntime bookSettings).
  intros t [<- | [<- | []]]; cbn; intuition discriminate.
Defined.

(** X15. The currency is used for nothing but the fixed discounts: two
    currencies in which the coupon and every member discount of the settings
    have the same fixed discount give the same price. *)
Theorem currency_only_selects_fixed_discounts `{GoRuntime} settings jwtClaims
    country currency currency' coupon items :
  (forall c, coupon = Some c ->
             Coupon.FixedDiscount c currency = Coupon.FixedDiscount c currency') ->
  (forall s d, settings = Some s -> In d (Settings.MemberDiscounts s) ->
               MemberDiscount.FixedDiscount d currency
               = MemberDiscount.FixedDiscount d currency') ->
  CalculatePrice settings jwtClaims country currency coupon items
  = CalculatePrice settings jwtClaims country currency' coupon items.
Proof.
  intros Hcoupon Hmember. apply CalculatePrice_ext. intros item _.
  apply itemPriceOf_eq; try reflexivity.
  - intros subtotal taxes. unfold couponDiscount.
    destruct coupon as [c|]; [|reflexivity]. now rewrite (Hcoupon c eq_refl).
  - intros subtotal taxes discount. unfold addMemberDiscounts.
    destruct settings as [s|]; [|reflexivity].
    specialize (Hmember s). revert discount.
    induction (Settings.MemberDiscounts s) as [|d l IH]; intros discount;
      [reflexivity|].
    cbn [fold_left]. rewrite (Hmember d eq_refl) by now left.
    apply IH. intros d' Hs Hd'. apply Hmember; [exact Hs | now right].
Qed.

Lemma currency_only_selects_fixed_discounts_witness :
  @CalculatePrice exampleRuntime (Some bookSettings) goldClaims "DE" "EUR" None
    [plainItem 1000]
  = @CalculatePrice exampleRuntime (Some bookSettings) goldClaims "DE" "GBP"
      None [plainItem 1000].
Proof.
  apply (@currency_only_selects_fixed_discounts exampleRuntime).
  - discriminate.
  - intros s d [= <-] [<- | [<- | []]]; reflexivity.
Defined.

(** X16. Nil claims switch all member discounts off: the price is the one
    that the same settings without member discounts give, for any claims. *)
Theorem nil_claims_are_no_member_discounts `{GoRuntime} (s : Settings.t)
    jwtClaims country currency coupon items :
  CalculatePrice (Some s) None country currency coupon items
  = CalculatePrice (Some (withMemberDiscounts s [])) jwtClaims country currency
      coupon items.
Proof.
  apply CalculatePrice_ext. intros item _.
  apply itemPriceOf_eq; try reflexivity.
  intros subtotal taxes discount. apply addMemberDiscounts_nil_claims.
Qed.

(** X17. Member discounts add up in any order: settings whose member
    discounts are the same up to their order give the same price (for tax
    rules, by contrast, the order decides). *)
Theorem member_discounts_commute `{GoRuntime} (s : Settings.t) l jwtClaims
    country currency coupon items :
  Permutation (Settings.MemberDiscounts s) l ->
  CalculatePrice (Some s) jwtClaims country currency coupon items
  = CalculatePrice (Some (withMemberDiscounts s l)) jwtClaims country currency
      coupon items.
Proof.
  intros Hperm. apply CalculatePrice_ext. intros item _.
  apply itemPriceOf_eq; try reflexivity.
  intros subtotal taxes discount. unfold addMemberDiscounts.
  cbn [withMemberDiscounts Settings.MemberDiscounts includeTaxesOf
       Settings.PricesIncludeTaxes].
  revert discount.
  induction Hperm as [|d l1 l2 _ IH|d1 d2 l1|l1 l2 l3 _ IH1 _ IH2];
    intros discount.
  - reflexivity.
  - cbn [fold_left]. apply IH.
  - cbn [fold_left]. f_equal.
    destruct (memberDiscountApplies jwtClaims d1 item),
      (memberDiscountApplies jwtClaims d2 item); try reflexivity.
    push_wrap.
  - now rewrite IH1.
Qed.

Lemma member_discounts_commute_witness :
  @CalculatePrice exampleRuntime (Some bookSettings) goldClaims "DE" "USD" None
    [plainItem 1000; bundle]
  = @CalculatePrice exampleRuntime
      (Some (withMemberDiscounts bookSettings [everyone 5 []; goldMembers]))
      goldClaims "DE" "USD" None [plainItem 1000; bundle].
Proof.
  apply (@member_discounts_commute exampleRuntime bookSettings).
  apply perm_swap.
Defined.

(** ** binary64: products and quotients of integers *)

Lemma bits_bounds n : 0 < n -> 2 ^ (bits n - 1) <= n < 2 ^ bits n.
Proof.
  intros Hn. unfold bits. pose proof (digits_bounds (Z.to_pos n)) as Hb.
  rewrite Z2Pos.id in Hb by exact Hn. exact Hb.
Qed.

Lemma bits_pos n : 1 <= bits n.
Proof. unfold bits. lia. Qed.

Lemma bits_le n k : 0 < n -> 0 <= k -> n < 2 ^ k -> bits n <= k.
Proof.
  intros Hn Hk Hlt. unfold bits. apply digits_le; [exact Hk|].
  now rewrite Z2Pos.id.
Qed.

Lemma bits_unique n d : 2 ^ (d - 1) <= n < 2 ^ d -> 0 < n -> bits n = d.
Proof.
  intros Hd Hn. unfold bits. apply digits_unique. now rewrite Z2Pos.id.
Qed.

Lemma exactFloat_bounded n :
  0 < n < 2 ^ 53 ->
  bounded F64.prec F64.emax (Z.to_pos (n * 2 ^ (53 - bits n))) (bits n - 53)
  = true
  /\ Z.pos (digits2_pos (Z.to_pos (n * 2 ^ (53 - bits n)))) = 53.
Proof.
  intros Hn. pose proof (bits_pos n) as Hb1.
  assert (Hb : bits n <= 53) by (apply bits_le; lia).
  pose proof (pow2_pos (53 - bits n) ltac:(lia)) as Hpow.
  assert (Hdig : Z.pos (digits2_pos (Z.to_pos (n * 2 ^ (53 - bits n)))) = 53).
  { rewrite (digits_shift (Z.to_pos n) _ (53 - bits n)); [unfold bits; lia | lia |].
    rewrite !Z2Pos.id by nia. reflexivity. }
  split; [|exact Hdig]. apply bounded_iff. rewrite Hdig. lia.
Qed.

(** [float64(n)] is exact below 2^53. *)
Lemma of_uint64_exact n : 0 <= n < 2 ^ 53 -> F64.of_uint64 n = exactFloat n.
Proof.
  intros Hn. destruct n as [|p|p]; [reflexivity| |lia].
  unfold F64.of_uint64. cbn [binary_normalize exactFloat].
  rewrite binary_round_short by lia.
  unfold bits. cbn [Z.to_pos]. f_equal; lia.
Qed.

(** Rounding a number that binary64 holds, given with too many digits. *)
Lemma binary_round_aux_exact s m e m' e' :
  bounded F64.prec F64.emax m' e' = true ->
  e <= e' ->
  Z.pos m = Z.pos m' * 2 ^ (e' - e) ->
  binary_round_aux F64.prec F64.emax s (Z.pos m) e loc_Exact
  = S754_finite s m' e'.
Proof.
  intros Hb He Hval. pose proof Hb as Hb'.
  apply bounded_iff in Hb' as [Hcanon Hmax].
  assert (Hmag : Z.pos (digits2_pos m) + e = Z.pos (digits2_pos m') + e').
  { rewrite (digits_shift m' m (e' - e)) by (lia || assumption). lia. }
  unfold binary_round_aux, shr_fexp. cbn [shr_record_of_loc Zdigits2].
  rewrite fexp_eq, Hmag, Hcanon, Hval, shr_exact by lia.
  cbn [shr_m loc_of_shr_record round_nearest_even Zdigits2].
  replace (e + (e' - e)) with e' by lia.
  rewrite fexp_eq, Hcanon, Z.sub_diag. cbn [shr shr_m].
  replace (e' <=? F64.emax - F64.prec) with true; [reflexivity|].
  symmetry. apply Z.leb_le. exact Hmax.
Qed.

Lemma bits_mul_lower a p :
  0 < a -> 0 < p -> bits a + bits p - 1 <= bits (a * p).
Proof.
  intros Ha Hp.
  pose proof (bits_bounds a Ha) as [Hla _].
  pose proof (bits_bounds p Hp) as [Hlp _].
  pose proof (bits_bounds (a * p) ltac:(nia)) as [_ Hhi].
  pose proof (bits_pos a). pose proof (bits_pos p).
  destruct (Z.le_gt_cases (bits a + bits p - 1) (bits (a * p))) as [|Hgt];
    [assumption|exfalso].
  assert (H2 : 2 ^ bits (a * p) <= 2 ^ (bits a + bits p - 2))
    by (apply Z.pow_le_mono_r; lia).
  replace (bits a + bits p - 2) with ((bits a - 1) + (bits p - 1)) in H2 by lia.
  rewrite pow2_split in H2 by lia.
  pose proof (pow2_pos (bits a - 1) ltac:(lia)).
  pose proof (pow2_pos (bits p - 1) ltac:(lia)).
  nia.
Qed.

(** The product of two integers is exact while it stays below 2^53. *)
Lemma mul_exact a p :
  0 <= a -> 0 <= p -> a * p < 2 ^ 53 -> a < 2 ^ 53 -> p < 2 ^ 53 ->
  F64.mul (exactFloat a) (exactFloat p) = exactFloat (a * p).
Proof.
  intros Ha Hp Hap Ha53 Hp53.
  destruct (Z.eq_dec a 0) as [-> | Hane].
  { destruct p; reflexivity. }
  destruct (Z.eq_dec p 0) as [-> | Hpne].
  { rewrite Z.mul_0_r. destruct a; reflexivity. }
  assert (Hpos : 0 < a * p) by nia.
  destruct a as [|a'|a']; [lia| |lia]. destruct p as [|p'|p']; [lia| |lia].
  destruct (Z.pos a' * Z.pos p') as [|n'|n'] eqn:En; [lia| |lia].
  unfold exactFloat, F64.mul, SFmul. cbn [xorb]. rewrite <- En.
  set (a := Z.pos a') in *. set (p := Z.pos p') in *.
  pose proof (bits_pos a) as Hba. pose proof (bits_pos p) as Hbp.
  assert (Hba53 : bits a <= 53) by (apply bits_le; lia).
  assert (Hbp53 : bits p <= 53) by (apply bits_le; lia).
  assert (Hbn53 : bits (a * p) <= 53) by (apply bits_le; lia).
  pose proof (bits_mul_lower a p ltac:(lia) ltac:(lia)) as Hlow.
  pose proof (pow2_pos (53 - bits a) ltac:(lia)) as Hpa.
  pose proof (pow2_pos (53 - bits p) ltac:(lia)) as Hpp.
  pose proof (pow2_pos (53 - bits (a * p)) ltac:(lia)) as Hpn.
  destruct (exactFloat_bounded (a * p) ltac:(lia)) as [Hbounded _].
  apply binary_round_aux_exact; [exact Hbounded | lia |].
  rewrite Pos2Z.inj_mul, !Z2Pos.id by nia.
  replace (bits (a * p) - 53 - (bits a - 53 + (bits p - 53)))
    with ((53 - bits a) + (53 - bits p) - (53 - bits (a * p))) by lia.
  assert (Hsplit : 2 ^ (53 - bits a) * 2 ^ (53 - bits p)
                   = 2 ^ (53 - bits (a * p))
                     * 2 ^ (53 - bits a + (53 - bits p) - (53 - bits (a * p)))).
  { rewrite <- !pow2_split by lia. f_equal. lia. }
  nia.
Qed.

(** *** Rounding a quotient of 53 or 54 digits *)

Lemma loc_of_shr_record_of_loc m l :
  loc_of_shr_record (shr_record_of_loc m l) = l
  /\ shr_m (shr_record_of_loc m l) = m.
Proof. destruct l as [|[| |]]; split; reflexivity. Qed.

Lemma Zdigits2_unique m d :
  2 ^ (d - 1) <= m < 2 ^ d -> 0 < m -> Zdigits2 m = d.
Proof.
  intros Hd Hm. destruct m as [|p|p]; [lia| |lia].
  cbn [Zdigits2]. now apply digits_unique.
Qed.

(** The last step of [binary_round_aux] on a mantissa that rounding may
    have brought to 2^53. *)
Lemma shr_fexp_rounded m e :
  4503599627370496 <= m <= 9007199254740992 -> -1074 <= e <= 970 ->
  shr_fexp F64.prec F64.emax m e loc_Exact
  = if m <? 9007199254740992
    then ({| shr_m := m; shr_r := false; shr_s := false |}, e)
    else ({| shr_m := 4503599627370496; shr_r := false; shr_s := false |},
          e + 1).
Proof.
  intros Hm He. unfold shr_fexp. cbn [shr_record_of_loc].
  destruct (Z.ltb_spec m 9007199254740992) as [Hlt | Hge].
  - rewrite (Zdigits2_unique m 53) by (change (2 ^ (53 - 1)) with 4503599627370496;
      change (2 ^ 53) with 9007199254740992; lia).
    rewrite fexp_eq. replace (Z.max (53 + e - 53) (-1074) - e) with 0 by lia.
    reflexivity.
  - assert (m = 9007199254740992) by lia. subst m.
    change (Zdigits2 9007199254740992) with 54.
    rewrite fexp_eq. replace (Z.max (54 + e - 53) (-1074) - e) with 1 by lia.
    reflexivity.
Qed.

Lemma round_nearest_even_range m l :
  m <= round_nearest_even m l <= m + 1.
Proof.
  destruct l as [|[| |]]; cbn [round_nearest_even]; try lia.
  destruct (Z.even m); lia.
Qed.

Lemma binary_round_aux_53 s m e l :
  4503599627370496 <= m < 9007199254740992 -> -1074 <= e <= 970 ->
  binary_round_aux F64.prec F64.emax s m e l
  = if round_nearest_even m l <? 9007199254740992
    then S754_finite s (Z.to_pos (round_nearest_even m l)) e
    else S754_finite s 4503599627370496 (e + 1).
Proof.
  intros Hm He. unfold binary_round_aux. unfold shr_fexp at 1.
  rewrite (Zdigits2_unique m 53) by (change (2 ^ (53 - 1)) with 4503599627370496;
    change (2 ^ 53) with 9007199254740992; lia).
  rewrite fexp_eq. replace (Z.max (53 + e - 53) (-1074) - e) with 0 by lia.
  cbn [shr]. destruct (loc_of_shr_record_of_loc m l) as [-> ->].
  pose proof (round_nearest_even_range m l) as Hr.
  rewrite shr_fexp_rounded by lia.
  destruct (round_nearest_even m l <? 9007199254740992) eqn:E; cbn [shr_m].
  - destruct (round_nearest_even m l) as [|p|p] eqn:Ep; [lia| |lia].
    cbn [Z.to_pos].
    replace (e <=? F64.emax - F64.prec) with true
      by (symmetry; apply Z.leb_le; unfold F64.emax, F64.prec; lia).
    reflexivity.
  - replace (e + 1 <=? F64.emax - F64.prec) with true
      by (symmetry; apply Z.leb_le; unfold F64.emax, F64.prec; lia).
    reflexivity.
Qed.

Lemma shr_1_m m r s :
  0 <= m ->
  shr_1 {| shr_m := m; shr_r := r; shr_s := s |}
  = {| shr_m := m / 2; shr_r := Z.odd m; shr_s := r || s |}.
Proof.
  intros Hm. destruct m as [|[p|p|]|p]; try lia; cbn [shr_1].
  - reflexivity.
  - f_equal. rewrite Pos2Z.inj_xI.
    apply (Z.div_unique _ 2 _ 1); lia.
  - f_equal. rewrite Pos2Z.inj_xO.
    apply (Z.div_unique _ 2 _ 0); lia.
  - reflexivity.
Qed.

(** The location of the quotient after one more bit is shifted out. *)
Lemma binary_round_aux_54 s m e l :
  9007199254740992 <= m < 18014398509481982 -> -1074 <= e <= 969 ->
  let l' := loc_of_shr_record
              {| shr_m := m / 2; shr_r := Z.odd m;
                 shr_s := shr_r (shr_record_of_loc m l)
                          || shr_s (shr_record_of_loc m l) |} in
  binary_round_aux F64.prec F64.emax s m e l
  = S754_finite s (Z.to_pos (round_nearest_even (m / 2) l')) (e + 1).
Proof.
  intros Hm He l'. unfold binary_round_aux. unfold shr_fexp at 1.
  rewrite (Zdigits2_unique m 54) by (change (2 ^ (54 - 1)) with 9007199254740992;
    change (2 ^ 54) with 18014398509481984; lia).
  rewrite fexp_eq. replace (Z.max (54 + e - 53) (-1074) - e) with 1 by lia.
  cbn [shr SpecFloat.iter_pos].
  assert (Hrec : shr_record_of_loc m l
                 = {| shr_m := m; shr_r := shr_r (shr_record_of_loc m l);
                      shr_s := shr_s (shr_record_of_loc m l) |}).
  { destruct l as [|[| |]]; reflexivity. }
  rewrite Hrec, shr_1_m by lia. cbn [shr_m]. fold l'.
  pose proof (round_nearest_even_range (m / 2) l') as Hr.
  assert (Hhalf : 4503599627370496 <= m / 2 < 9007199254740991).
  { split.
    - apply Z.div_le_lower_bound; lia.
    - apply Z.div_lt_upper_bound; lia. }
  rewrite shr_fexp_rounded by lia.
  replace (round_nearest_even (m / 2) l' <? 9007199254740992) with true
    by (symmetry; apply Z.ltb_lt; lia).
  cbn [shr_m].
  destruct (round_nearest_even (m / 2) l') as [|p|p] eqn:Ep; [lia| |lia].
  cbn [Z.to_pos].
  replace (e + 1 <=? F64.emax - F64.prec) with true
    by (symmetry; apply Z.leb_le; unfold F64.emax, F64.prec; lia).
  reflexivity.
Qed.

(** *** Dividing an integer by [100] *)

Lemma div_eucl_div_mod a b : Z.div_eucl a b = (a / b, a mod b).
Proof. unfold Z.div, Z.modulo. destruct (Z.div_eucl a b); reflexivity. Qed.

Lemma compare_scaled r c : 0 < c -> (2 * (r * c) ?= 25 * c) = (2 * r ?= 25).
Proof.
  intros Hc.
  destruct (Z.compare_spec (2 * r) 25) as [H | H | H].
  - apply Z.compare_eq_iff. nia.
  - apply Z.compare_lt_iff. nia.
  - apply Z.compare_gt_iff. nia.
Qed.

Lemma new_location_hundred r :
  0 <= r < 25 ->
  new_location (25 * 281474976710656) (r * 281474976710656)
  = if r =? 0 then loc_Exact else loc_Inexact (2 * r ?= 25).
Proof.
  intros Hr. unfold new_location.
  assert (He : Z.even (25 * 281474976710656) = true) by reflexivity.
  rewrite He. unfold new_location_even.
  rewrite compare_scaled by reflexivity.
  destruct (Z.eqb_spec r 0) as [-> | Hnz]; [reflexivity|].
  replace (r * 281474976710656 =? 0) with false; [reflexivity|].
  symmetry; apply Z.eqb_neq; lia.
Qed.

(** The quotient, its exponent and what is left over when the integer
    [N = m * 2^e] is divided by [100] = (25 * 2^48) * 2^-46. *)
Lemma SFdiv_core_hundred m e T :
  Z.pos (digits2_pos m) = 53 ->
  -52 <= e <= 0 ->
  Z.pos m * 2 ^ 53 = T * 281474976710656 ->
  SFdiv_core_binary F64.prec F64.emax (Z.pos m) e 7036874417766400 (-46)
  = (T / 25, e - 7,
     if T mod 25 =? 0 then loc_Exact else loc_Inexact (2 * (T mod 25) ?= 25)).
Proof.
  intros Hdig He HT. unfold SFdiv_core_binary.
  cbn [Zdigits2]. rewrite Hdig.
  change (Z.pos (digits2_pos 7036874417766400)) with 53.
  rewrite fexp_eq.
  replace (Z.min (Z.max (53 + e - (53 + -46) - 53) (-1074)) (e - -46))
    with (e - 7) by lia.
  replace (e - -46 - (e - 7)) with 53 by lia.
  rewrite Z.shiftl_mul_pow2, HT by lia.
  rewrite div_eucl_div_mod.
  change (Z.pos 7036874417766400) with (25 * 281474976710656).
  rewrite Z.div_mul_cancel_r, Z.mul_mod_distr_r by lia.
  rewrite new_location_hundred by (apply Z.mod_pos_bound; lia).
  reflexivity.
Qed.

Lemma div_hundred_core N :
  0 < N < 2 ^ 53 ->
  let T := N * 2 ^ (58 - bits N) in
  F64.div (exactFloat N) F64.hundred
  = binary_round_aux F64.prec F64.emax false (T / 25) (bits N - 60)
      (if T mod 25 =? 0 then loc_Exact
       else loc_Inexact (2 * (T mod 25) ?= 25)).
Proof.
  intros HN T.
  destruct (exactFloat_bounded N HN) as [_ Hdig].
  pose proof (bits_pos N) as Hb1.
  assert (Hb : bits N <= 53) by (apply bits_le; lia).
  pose proof (pow2_pos (53 - bits N) ltac:(lia)) as Hpow.
  assert (Hsplit : 2 ^ (53 - bits N) * 2 ^ 53
                   = 2 ^ (58 - bits N) * 281474976710656).
  { change 281474976710656 with (2 ^ 48). rewrite <- !pow2_split by lia.
    f_equal. lia. }
  assert (HT : Z.pos (Z.to_pos (N * 2 ^ (53 - bits N))) * 2 ^ 53
               = T * 281474976710656).
  { rewrite Z2Pos.id by lia. subst T. nia. }
  pose proof (SFdiv_core_hundred (Z.to_pos (N * 2 ^ (53 - bits N)))
                (bits N - 53) T Hdig ltac:(lia) HT) as Hcore.
  replace (bits N - 53 - 7) with (bits N - 60) in Hcore by lia.
  destruct N as [|n|n]; [lia| |lia].
  unfold exactFloat, F64.div, F64.hundred, SFdiv. rewrite Hcore. reflexivity.
Qed.

Lemma finite_53_bounded m e :
  4503599627370496 <= m < 9007199254740992 -> -1074 <= e <= 971 ->
  bounded F64.prec F64.emax (Z.to_pos m) e = true.
Proof.
  intros Hm He. apply bounded_iff.
  rewrite (digits_unique (Z.to_pos m) 53).
  - lia.
  - rewrite Z2Pos.id by lia.
    change (2 ^ (53 - 1)) with 4503599627370496.
    change (2 ^ 53) with 9007199254740992. exact Hm.
Qed.

(** The quotient [N / 100] as binary64 has it: a number [Y * 2^e], with [e]
    the exponent of the division, that is nearest to [N / 100] among the
    multiples of [G * 2^e]. *)
Lemma div_hundred_nearest N :
  0 < N < 2 ^ 53 ->
  let e := bits N - 60 in
  let T := N * 2 ^ (58 - bits N) in
  exists my ey G,
    F64.div (exactFloat N) F64.hundred = S754_finite false my ey
    /\ bounded F64.prec F64.emax my ey = true
    /\ (ey = e \/ ey = e + 1)
    /\ (G = 1 \/ G = 2)
    /\ (Z.pos my * 2 ^ (ey - e)) mod G = 0
    /\ 2 * Z.abs (25 * (Z.pos my * 2 ^ (ey - e)) - T) <= 25 * G.
Proof.
  intros HN e T. rewrite div_hundred_core by exact HN. fold T. fold e.
  pose proof (bits_pos N) as Hb1.
  assert (Hb : bits N <= 53) by (apply bits_le; lia).
  pose proof (bits_bounds N ltac:(lia)) as [HNlo HNhi].
  assert (HT : 144115188075855872 <= T < 288230376151711744).
  { subst T.
    pose proof (pow2_pos (58 - bits N) ltac:(lia)) as Hp.
    pose proof (pow2_pos (bits N - 1) ltac:(lia)) as Hq.
    assert (H57 : 2 ^ (bits N - 1) * 2 ^ (58 - bits N) = 144115188075855872).
    { rewrite <- pow2_split by lia. replace (bits N - 1 + (58 - bits N)) with 57 by lia.
      reflexivity. }
    assert (H58 : 2 ^ bits N * 2 ^ (58 - bits N) = 288230376151711744).
    { rewrite <- pow2_split by lia. replace (bits N + (58 - bits N)) with 58 by lia.
      reflexivity. }
    split; nia. }
  pose proof (Z.div_mod T 25 ltac:(lia)) as Hdm.
  pose proof (Z.mod_pos_bound T 25 ltac:(lia)) as Hrem.
  set (q := T / 25) in *. set (r := T mod 25) in *.
  assert (He : -59 <= e <= -7) by (subst e; lia).
  destruct (Z.lt_ge_cases q 9007199254740992) as [Hq53 | Hq54].
  - (* the quotient has 53 digits *)
    rewrite binary_round_aux_53 by lia.
    set (l := if r =? 0 then loc_Exact else loc_Inexact (2 * r ?= 25)).
    assert (Hm1 : q <= round_nearest_even q l <= q + 1
                  /\ 2 * Z.abs (25 * round_nearest_even q l - T) <= 25).
    { subst l. destruct (Z.eqb_spec r 0) as [Hr0 | Hr0].
      - cbn [round_nearest_even]. lia.
      - destruct (Z.compare_spec (2 * r) 25) as [Hc | Hc | Hc];
          cbn [round_nearest_even]; lia. }
    destruct Hm1 as [Hrange Hnear].
    destruct (Z.ltb_spec (round_nearest_even q l) 9007199254740992) as [Hlt | Hge].
    + exists (Z.to_pos (round_nearest_even q l)), e, 1.
      split; [reflexivity|]. split; [apply finite_53_bounded; lia|].
      split; [now left|]. split; [now left|].
      rewrite Z.sub_diag, Z.mul_1_r, Z2Pos.id by lia.
      split; [apply Z.mod_1_r | lia].
    + exists 4503599627370496%positive, (e + 1), 1.
      split; [reflexivity|].
      split; [apply (finite_53_bounded 4503599627370496); lia|].
      split; [now right|]. split; [now left|].
      replace (e + 1 - e) with 1 by lia.
      change (Z.pos 4503599627370496 * 2 ^ 1) with 9007199254740992.
      split; [reflexivity | lia].
  - (* the quotient has 54 digits *)
    rewrite binary_round_aux_54 by lia.
    set (l := if r =? 0 then loc_Exact else loc_Inexact (2 * r ?= 25)).
    set (l' := loc_of_shr_record _).
    pose proof (Z.div_mod q 2 ltac:(lia)) as Hq2.
    pose proof (Zmod_odd q) as Hodd.
    assert (Hm1 : q / 2 <= round_nearest_even (q / 2) l' <= q / 2 + 1
                  /\ 2 * Z.abs (25 * (round_nearest_even (q / 2) l' * 2) - T)
                     <= 50).
    { split; [apply round_nearest_even_range|].
      subst l' l. destruct (Z.eqb_spec r 0) as [Hr0 | Hr0].
      - cbn [shr_record_of_loc shr_r shr_s orb].
        destruct (Z.odd q); cbn [loc_of_shr_record round_nearest_even].
        + destruct (Z.even (q / 2)); lia.
        + lia.
      - assert (Hs : shr_r (shr_record_of_loc q (loc_Inexact (2 * r ?= 25)))
                     || shr_s (shr_record_of_loc q (loc_Inexact (2 * r ?= 25)))
                     = true)
          by (destruct (2 * r ?= 25); reflexivity).
        rewrite Hs.
        destruct (Z.odd q); cbn [loc_of_shr_record round_nearest_even]; lia. }
    destruct Hm1 as [Hrange Hnear].
    assert (Hhalf : 4503599627370496 <= q / 2 < 9007199254740991).
    { split.
      - apply Z.div_le_lower_bound; lia.
      - apply Z.div_lt_upper_bound; lia. }
    exists (Z.to_pos (round_nearest_even (q / 2) l')), (e + 1), 2.
    split; [reflexivity|]. split; [apply finite_53_bounded; lia|].
    split; [now right|]. split; [now right|].
    replace (e + 1 - e) with 1 by lia. rewrite Z2Pos.id by lia.
    change (2 ^ 1) with 2.
    split; [apply Z.mod_mul; lia | lia].
Qed.

(** *** From the rounded quotient to the rounded integer *)

Lemma roundHalfEven_halfEven m e :
  e < 0 -> roundHalfEven m e = halfEven m (2 ^ (- e)).
Proof.
  intros He. unfold roundHalfEven, halfEven.
  replace (0 <=? e) with false by (symmetry; apply Z.leb_gt; exact He).
  reflexivity.
Qed.

Lemma halfEven_scale n d c :
  0 < d -> 0 < c -> halfEven (n * c) (d * c) = halfEven n d.
Proof.
  intros Hd Hc. unfold halfEven.
  rewrite Z.div_mul_cancel_r, Z.mul_mod_distr_r by lia.
  replace (2 * (n mod d * c) ?= d * c) with (2 * (n mod d) ?= d);
    [reflexivity|].
  rewrite (Zmult_compare_compat_r (2 * (n mod d)) d c) by lia.
  f_equal. lia.
Qed.

Lemma halfEven_at n d k r :
  0 < d -> n = d * k + r -> 0 <= r < d ->
  halfEven n d
  = match 2 * r ?= d with
    | Lt => k
    | Gt => k + 1
    | Eq => if Z.even k then k else k + 1
    end.
Proof.
  intros Hd Hn Hr. unfold halfEven.
  rewrite <- (Z.div_unique n d k r) by (lia || (left; exact Hr)).
  rewrite <- (Z.mod_unique n d k r) by (lia || (left; exact Hr)).
  reflexivity.
Qed.

(** A multiple [Y] of [G], nearest to [N * W / 25], rounds to the same
    integer when divided by [4 * W] as [N] does when divided by 100. *)
Lemma nearest_rounds_alike N W Y G :
  0 <= N -> 32 <= W -> G = 1 \/ G = 2 -> Y mod G = 0 ->
  2 * Z.abs (25 * Y - N * W) <= 25 * G ->
  halfEven Y (4 * W) = halfEven N 100.
Proof.
  intros HN HW HG Hmod Hnear.
  pose proof (Z.div_mod N 100 ltac:(lia)) as Hdm.
  pose proof (Z.mod_pos_bound N 100 ltac:(lia)) as Hf.
  set (k := N / 100) in *. set (f := N mod 100) in *.
  assert (HNW : N * W = 100 * (k * W) + f * W) by (rewrite Hdm; ring).
  set (P := k * W) in *.
  assert (HfW : 0 <= f * W) by nia.
  assert (HY2 : G = 2 -> exists y, Y = 2 * y).
  { intros ->. exists (Y / 2). pose proof (Z.div_mod Y 2 ltac:(lia)). lia. }
  rewrite (halfEven_at N 100 k f) by lia.
  destruct (Z.compare_spec (2 * f) 100) as [Hc | Hc | Hc].
  - (* half way *)
    assert (HfW50 : f * W = 50 * W) by nia.
    assert (HY : Y = 4 * P + 2 * W).
    { destruct HG as [-> | ->]; [lia|].
      destruct (HY2 eq_refl) as [y ->]. lia. }
    rewrite (halfEven_at Y (4 * W) k (2 * W)) by (subst P; lia).
    replace (2 * (2 * W) ?= 4 * W) with Eq
      by (symmetry; apply Z.compare_eq_iff; lia).
    reflexivity.
  - (* below one half *)
    assert (HfW49 : f * W <= 49 * W) by nia.
    destruct (Z.eq_dec f 0) as [Hf0 | Hf0].
    + assert (HfW0 : f * W = 0) by nia.
      assert (HY : Y = 4 * P).
      { destruct HG as [-> | ->]; [lia|].
        destruct (HY2 eq_refl) as [y ->]. lia. }
      rewrite (halfEven_at Y (4 * W) k 0) by (subst P; lia).
      replace (2 * 0 ?= 4 * W) with Lt
        by (symmetry; apply Z.compare_lt_iff; lia).
      reflexivity.
    + assert (HfW1 : W <= f * W) by nia.
      assert (HY : 4 * P <= Y < 4 * P + 2 * W) by (destruct HG as [-> | ->]; lia).
      rewrite (halfEven_at Y (4 * W) k (Y - 4 * P)) by (subst P; lia).
      replace (2 * (Y - 4 * P) ?= 4 * W) with Lt
        by (symmetry; apply Z.compare_lt_iff; lia).
      reflexivity.
  - (* above one half *)
    assert (HfW51 : 51 * W <= f * W) by nia.
    assert (HfW99 : f * W <= 99 * W) by nia.
    assert (HY : 4 * P + 2 * W < Y <= 4 * P + 4 * W)
      by (destruct HG as [-> | ->]; lia).
    destruct (Z.eq_dec Y (4 * P + 4 * W)) as [HYtop | HYtop].
    + rewrite (halfEven_at Y (4 * W) (k + 1) 0) by (subst P; lia).
      replace (2 * 0 ?= 4 * W) with Lt
        by (symmetry; apply Z.compare_lt_iff; lia).
      reflexivity.
    + rewrite (halfEven_at Y (4 * W) k (Y - 4 * P)) by (subst P; lia).
      replace (2 * (Y - 4 * P) ?= 4 * W) with Gt
        by (symmetry; apply Z.compare_gt_iff; lia).
      reflexivity.
Qed.

(** ** Percentages are exact *)

Lemma rint_div_hundred `{GoRuntime} N :
  0 <= N < 2 ^ 53 ->
  rint (F64.div (exactFloat N) F64.hundred) = halfEven N 100.
Proof.
  intros HN. destruct (Z.eq_dec N 0) as [-> | Hne]; [reflexivity|].
  destruct (div_hundred_nearest N ltac:(lia))
    as (my & ey & G & Hdiv & Hb & Hey & HG & Hmod & Hnear).
  pose proof (bits_pos N) as Hb1.
  assert (Hb53 : bits N <= 53) by (apply bits_le; lia).
  rewrite Hdiv, rint_nonnegative by (assumption || lia).
  rewrite roundHalfEven_halfEven by lia.
  set (W := 2 ^ (58 - bits N)) in *.
  assert (HW : 32 <= W).
  { subst W. change 32 with (2 ^ 5). apply Z.pow_le_mono_r; lia. }
  assert (Hscale : 2 ^ (- ey) * 2 ^ (ey - (bits N - 60)) = 4 * W).
  { subst W. change 4 with (2 ^ 2). rewrite <- !pow2_split by lia.
    f_equal. lia. }
  pose proof (pow2_pos (- ey) ltac:(lia)) as Hp1.
  pose proof (pow2_pos (ey - (bits N - 60)) ltac:(lia)) as Hp2.
  rewrite <- (halfEven_scale (Z.pos my) (2 ^ (- ey)) (2 ^ (ey - (bits N - 60))))
    by assumption.
  rewrite Hscale.
  apply (nearest_rounds_alike N W _ G); (assumption || lia).
Qed.

Lemma taxOn_roundedPercent `{GoRuntime} amount percentage :
  0 <= amount < 2 ^ 53 ->
  0 <= percentage < 2 ^ 53 ->
  amount * percentage < 2 ^ 53 ->
  taxOn amount percentage = roundedPercent amount percentage.
Proof.
  intros Ha Hp Hap. unfold taxOn, roundedPercent.
  rewrite !of_uint64_exact, mul_exact by lia.
  apply rint_div_hundred. nia.
Qed.

(** X18. Within 53 bits the floating-point detour of lines 192 and 230 is
    exact: [rint(float64(amount) * float64(percentage) / 100)] is the integer
    nearest to [amount * percentage / 100], the even one when two integers
    are as near. *)
Theorem taxOn_exact `{GoRuntime} amount percentage :
  0 <= amount < 2 ^ 53 ->
  0 <= percentage < 2 ^ 53 ->
  amount * percentage < 2 ^ 53 ->
  taxOn amount percentage = roundedPercent amount percentage
  /\ 0 <= 2 * Z.abs (100 * taxOn amount percentage - amount * percentage)
       <= 100.
Proof.
  intros Ha Hp Hap. rewrite taxOn_roundedPercent by assumption.
  split; [reflexivity|].
  unfold roundedPercent, halfEven.
  pose proof (Z.div_mod (amount * percentage) 100 ltac:(lia)) as Hdm.
  pose proof (Z.mod_pos_bound (amount * percentage) 100 ltac:(lia)) as Hr.
  destruct (Z.compare_spec (2 * ((amount * percentage) mod 100)) 100);
    [destruct (Z.even (amount * percentage / 100))| |]; lia.
Qed.

Lemma taxOn_exact_witness : @taxOn exampleRuntime 833 20 = 167.
Proof.
  rewrite (proj1 (@taxOn_exact exampleRuntime 833 20 ltac:(lia) ltac:(lia)
                    ltac:(lia))).
  reflexivity.
Defined.

Lemma halfEven_nonneg n d : 0 <= n -> 0 < d -> 0 <= halfEven n d.
Proof.
  intros Hn Hd. unfold halfEven.
  assert (Hk : 0 <= n / d) by (apply Z.div_pos; lia).
  destruct (2 * (n mod d) ?= d); [destruct (Z.even (n / d))| |]; lia.
Qed.

Lemma roundedPercent_hundred a : roundedPercent a 100 = a.
Proof.
  unfold roundedPercent, halfEven.
  rewrite Z.div_mul, Z.mod_mul by lia. reflexivity.
Qed.

Lemma roundedPercent_zero a : roundedPercent a 0 = 0.
Proof. unfold roundedPercent. rewrite Z.mul_0_r. reflexivity. Qed.

(** X19. Within 53 bits and without overflow, the discount is the smaller
    of the discountable base and of the rounded percentage of the base plus
    the fixed amount, in exact integer arithmetic; at 100% it is the base. *)
Theorem calculateDiscount_exact `{GoRuntime} (amountToDiscount taxes percentage
    fixed : Z) (includeTaxes : bool) :
  0 <= amountToDiscount -> 0 <= taxes -> 0 <= percentage < 2 ^ 53 ->
  let base := if includeTaxes then amountToDiscount + taxes
              else amountToDiscount in
  base < 2 ^ 53 ->
  base * percentage < 2 ^ 53 ->
  0 <= fixed ->
  roundedPercent base percentage + fixed < U64.modulus ->
  calculateDiscount amountToDiscount taxes percentage fixed includeTaxes
  = Z.min base (roundedPercent base percentage + fixed)
  /\ (percentage = 100 ->
      calculateDiscount amountToDiscount taxes percentage fixed includeTaxes
      = base).
Proof.
  intros Ha Ht Hp base Hbase Hprod Hfixed Hsum.
  assert (Hb0 : 0 <= base) by (subst base; destruct includeTaxes; lia).
  assert (Hmod : 9007199254740992 < U64.modulus) by reflexivity.
  change (2 ^ 53) with 9007199254740992 in *.
  assert (Hbase' : (if includeTaxes then U64.add amountToDiscount taxes
                    else amountToDiscount) = base).
  { subst base. destruct includeTaxes; [|reflexivity].
    apply wrap_small. lia. }
  assert (Hr : 0 <= roundedPercent base percentage)
    by (apply halfEven_nonneg; nia).
  assert (Hexact : calculateDiscount amountToDiscount taxes percentage fixed
                     includeTaxes
                   = Z.min base (roundedPercent base percentage + fixed)).
  { unfold calculateDiscount. rewrite Hbase'.
    assert (Hd : (if 0 <? percentage
                  then rint (F64.div (F64.mul (F64.of_uint64 base)
                                        (F64.of_uint64 percentage))
                               F64.hundred)
                  else 0) = roundedPercent base percentage).
    { destruct (Z.ltb_spec 0 percentage) as [Hpos | Hzero].
      - apply (taxOn_roundedPercent base percentage);
          change (2 ^ 53) with 9007199254740992; lia.
      - replace percentage with 0 by lia. now rewrite roundedPercent_zero. }
    rewrite Hd. unfold U64.add. rewrite wrap_small by lia.
    destruct (Z.ltb_spec base (roundedPercent base percentage + fixed)); lia. }
  split; [exact Hexact|].
  intros H100. rewrite Hexact, H100, roundedPercent_hundred. lia.
Qed.

Lemma calculateDiscount_exact_witness :
  @calculateDiscount exampleRuntime 833 167 15 25 true = 175.
Proof.
  rewrite (proj1 (@calculateDiscount_exact exampleRuntime 833 167 15 25 true
                    ltac:(lia) ltac:(lia) ltac:(lia) ltac:(cbn; lia)
                    ltac:(cbn; lia) ltac:(lia)
                    ltac:(vm_compute; reflexivity))).
  reflexivity.
Defined.

(** X20. When prices do not include taxes and every taxable amount of an
    item stays within 53 bits, the taxes of the item are the sum, modulo
    2^64, of [price * percentage / 100] rounded half to even over its taxable
    amounts: the floating-point arithmetic adds no error. *)
Theorem exclusive_taxes_exact `{GoRuntime} settings jwtClaims country currency
    coupon item :
  includeTaxesOf settings = false ->
  (forall a, In a (taxAmountsOf settings country item) ->
             0 <= price a < 2 ^ 53 /\ 0 <= percentage a < 2 ^ 53
             /\ price a * percentage a < 2 ^ 53) ->
  ItemPrice.Taxes (itemPriceOf settings jwtClaims country currency coupon item)
  = U64.wrap
      (sumZ (map (fun a => roundedPercent (price a) (percentage a))
               (taxAmountsOf settings country item))).
Proof.
  intros Hinc Hbounds.
  rewrite itemPriceOf_Taxes, Hinc, applyTaxes_exclusive. cbn [snd].
  f_equal. f_equal. apply map_ext_in. intros a Ha.
  destruct (Hbounds a Ha) as (Hp & Hq & Hpq). now apply taxOn_roundedPercent.
Qed.

Lemma exclusive_taxes_exact_witness :
  ItemPrice.Taxes
    (@itemPriceOf exampleRuntime (Some bookSettings) goldClaims "DE" "USD" None
       bundle)
  = 170.
Proof.
  rewrite (@exclusive_taxes_exact exampleRuntime (Some bookSettings) goldClaims
             "DE" "USD" None bundle eq_refl).
  - reflexivity.
  - intros a [<- | [<- | []]]; cbn; lia.
Defined.

(** ** Prices that include taxes *)

(** X21. When prices include taxes, the unit price of an item that is taxed
    through its sub-items plays no part: the subtotal is rebuilt from the
    prices of the sub-items, and the price of the item is the same at any
    unit price. *)
Theorem inclusive_bundle_ignores_unit_price `{GoRuntime} (s : Settings.t)
    jwtClaims country currency coupon item unitPrice :
  Settings.PricesIncludeTaxes s = true ->
  FixedVAT item = 0 ->
  TaxableItems item <> [] ->
  itemPriceOf (Some s) jwtClaims country currency coupon
    (withUnitPrice item unitPrice)
  = itemPriceOf (Some s) jwtClaims country currency coupon item.
Proof.
  intros Hinc Hvat Hsub. unfold itemPriceOf.
  cbn [includeTaxesOf]. rewrite Hinc.
  assert (Hamounts : taxAmountsOf (Some s) country (withUnitPrice item unitPrice)
                     = taxAmountsOf (Some s) country item).
  { unfold taxAmountsOf. cbn [withUnitPrice FixedVAT TaxableItems].
    rewrite Hvat. cbn [Z.eqb negb].
    destruct (TaxableItems item) as [|sub subs]; [contradiction | reflexivity]. }
  rewrite Hamounts.
  assert (Hne : taxAmountsOf (Some s) country item <> []).
  { unfold taxAmountsOf. rewrite Hvat. cbn [Z.eqb negb].
    destruct (TaxableItems item); [contradiction | discriminate]. }
  assert (Htaxes : applyTaxes true
                     (PriceInLowestUnit (withUnitPrice item unitPrice))
                     (taxAmountsOf (Some s) country item)
                   = applyTaxes true (PriceInLowestUnit item)
                       (taxAmountsOf (Some s) country item)).
  { unfold applyTaxes.
    destruct (taxAmountsOf (Some s) country item); [contradiction | reflexivity]. }
  rewrite Htaxes. reflexivity.
Qed.

Lemma inclusive_bundle_ignores_unit_price_witness :
  @itemPriceOf exampleRuntime (Some (settingsWithProducts [])) None "DE" "USD"
    None (withUnitPrice bundle 99)
  = @itemPriceOf exampleRuntime (Some (settingsWithProducts [])) None "DE"
      "USD" None bundle.
Proof.
  apply (@inclusive_bundle_ignores_unit_price exampleRuntime
           (settingsWithProducts []));
    [reflexivity | reflexivity | discriminate].
Defined.

(** X22. When prices include taxes and an item has a single taxable amount,
    its taxes are the rounded percentage of its subtotal, the price without
    taxes that line 189 has worked out: Taxes = Subtotal * percentage / 100,
    rounded half to even (within 53 bits). *)
Theorem inclusive_taxes_of_subtotal `{GoRuntime} settings jwtClaims country
    currency coupon item amount :
  includeTaxesOf settings = true ->
  taxAmountsOf settings country item = [amount] ->
  let ip := itemPriceOf settings jwtClaims country currency coupon item in
  0 <= percentage amount < 2 ^ 53 ->
  ItemPrice.Subtotal ip < 2 ^ 53 ->
  ItemPrice.Subtotal ip * percentage amount < 2 ^ 53 ->
  ItemPrice.Taxes ip = roundedPercent (ItemPrice.Subtotal ip) (percentage amount)
  /\ 0 <= ItemPrice.Subtotal ip.
Proof.
  intros Hinc Hamounts. cbn zeta.
  rewrite itemPriceOf_Subtotal, itemPriceOf_Taxes, Hinc, Hamounts.
  unfold applyTaxes. cbn [fold_left addTax fst snd].
  set (subtotal := U64.add 0 _).
  assert (Hs : 0 <= subtotal < U64.modulus) by apply wrap_range.
  assert (Hsub : subtotal
                 = rint (F64.mul (F64.div (F64.of_uint64 (price amount))
                                    (F64.add F64.hundred
                                       (F64.of_uint64 (percentage amount))))
                           F64.hundred)).
  { subst subtotal. apply wrap_small, rint_range. }
  rewrite <- Hsub. fold (taxOn subtotal (percentage amount)).
  intros Hp Hs53 Hprod.
  unfold U64.add. rewrite Z.add_0_l, wrap_small by apply rint_range.
  split; [|lia]. apply taxOn_roundedPercent; lia.
Qed.

Lemma inclusive_taxes_of_subtotal_witness :
  ItemPrice.Taxes
    (@itemPriceOf exampleRuntime (Some (settingsWithProducts [])) None "DE"
       "USD" None (plainItem 1000))
  = roundedPercent 833 20.
Proof.
  apply (@inclusive_taxes_of_subtotal exampleRuntime
           (Some (settingsWithProducts [])) None "DE" "USD" None
           (plainItem 1000) {| price := 1000; percentage := 20 |});
    try reflexivity.
  cbn. lia.
Defined.

(** X23. An item of quantity 0 gets its item price like any other, but adds
    nothing to the four amounts of the order. *)
Theorem zero_quantity_adds_nothing `{GoRuntime} settings jwtClaims country
    currency coupon items1 item items2 :
  GetQuantity item = 0 ->
  let p := CalculatePrice settings jwtClaims country currency coupon
             (items1 ++ item :: items2) in
  let p' := CalculatePrice settings jwtClaims country currency coupon
              (items1 ++ items2) in
  length (Price.Items p) = S (length (Price.Items p'))
  /\ Price.Subtotal p = Price.Subtotal p'
  /\ Price.Discount p = Price.Discount p'
  /\ Price.Taxes p = Price.Taxes p'
  /\ Price.Total p = Price.Total p'.
Proof.
  intros Hq. cbn zeta.
  destruct (CalculatePrice_aggregates settings jwtClaims country currency
              coupon (items1 ++ item :: items2)) as (Hi & Hs & Hd & Ht & Htot).
  destruct (CalculatePrice_aggregates settings jwtClaims country currency
              coupon (items1 ++ items2)) as (Hi' & Hs' & Hd' & Ht' & Htot').
  rewrite Hi, Hs, Hd, Ht, Htot, Hi', Hs', Hd', Ht', Htot'.
  assert (Hw : forall field,
             weighted field
               (map (itemPriceOf settings jwtClaims country currency coupon)
                  (items1 ++ item :: items2))
             = weighted field
                 (map (itemPriceOf settings jwtClaims country currency coupon)
                    (items1 ++ items2))).
  { intros field. rewrite !map_app, !weighted_app_list. cbn [map].
    change (itemPriceOf settings jwtClaims country currency coupon item
            :: map (itemPriceOf settings jwtClaims country currency coupon)
                 items2)
      with ([itemPriceOf settings jwtClaims country currency coupon item]
            ++ map (itemPriceOf settings jwtClaims country currency coupon)
                 items2).
    rewrite weighted_app_list. unfold weighted at 2. cbn [map sumZ fold_right].
    assert (Hquantity : ItemPrice.Quantity
                          (itemPriceOf settings jwtClaims country currency
                             coupon item) = 0).
    { unfold itemPriceOf. destruct (applyTaxes _ _ _). exact Hq. }
    rewrite Hquantity. lia. }
  rewrite !Hw. repeat split.
  rewrite !length_map, !length_app. cbn [length]. lia.
Qed.

Lemma zero_quantity_adds_nothing_witness :
  Price.Total
    (@CalculatePrice exampleRuntime (Some bookSettings) goldClaims "DE" "USD"
       None ([plainItem 1000] ++ withTaxableItems
                                   {| ProductSku := "sku-6";
                                      PriceInLowestUnit := 700;
                                      ProductType := "book"; FixedVAT := 0;
                                      TaxableItems := []; GetQuantity := 0 |}
                                   [] :: [bundle]))
  = Price.Total
      (@CalculatePrice exampleRuntime (Some bookSettings) goldClaims "DE" "USD"
         None ([plainItem 1000] ++ [bundle])).
Proof.
  apply (@zero_quantity_adds_nothing exampleRuntime (Some bookSettings)
           goldClaims "DE" "USD" None [plainItem 1000]).
  reflexivity.
Defined.

(** X24. The total of an item is Subtotal - Discount + Taxes exactly when
    the discount does not exceed Subtotal + Taxes; when it does, the total is
    2^64 minus the excess (for Subtotal + Taxes below 2^64). *)
Theorem item_total_cases `{GoRuntime} settings jwtClaims country currency coupon
    item :
  0 <= PriceInLowestUnit item ->
  let ip := itemPriceOf settings jwtClaims country currency coupon item in
  ItemPrice.Subtotal ip + ItemPrice.Taxes ip < U64.modulus ->
  0 <= ItemPrice.Discount ip < U64.modulus
  /\ (ItemPrice.Discount ip <= ItemPrice.Subtotal ip + ItemPrice.Taxes ip ->
      ItemPrice.Total ip
      = ItemPrice.Subtotal ip - ItemPrice.Discount ip + ItemPrice.Taxes ip)
  /\ (ItemPrice.Subtotal ip + ItemPrice.Taxes ip < ItemPrice.Discount ip ->
      ItemPrice.Total ip
      = U64.modulus
        - (ItemPrice.Discount ip - ItemPrice.Subtotal ip - ItemPrice.Taxes ip)).
Proof.
  intros Hprice. cbn zeta.
  pose proof (itemPriceOf_Total settings jwtClaims country currency coupon item)
    as Htotal.
  pose proof (itemPriceOf_Discount settings jwtClaims country currency coupon
                item) as Hdiscount.
  cbn zeta in Htotal, Hdiscount.
  assert (Hs : 0 <= ItemPrice.Subtotal
                      (itemPriceOf settings jwtClaims country currency coupon
                         item)).
  { rewrite itemPriceOf_Subtotal. now apply applyTaxes_Subtotal_nonneg. }
  assert (Ht : 0 <= ItemPrice.Taxes
                      (itemPriceOf settings jwtClaims country currency coupon
                         item)).
  { rewrite itemPriceOf_Taxes. apply applyTaxes_Taxes_range. }
  set (ip := itemPriceOf settings jwtClaims country currency coupon item) in *.
  intros Hsum.
  assert (Hd : 0 <= ItemPrice.Discount ip < U64.modulus).
  { rewrite Hdiscount. unfold addMemberDiscounts.
    pose proof (couponDiscount_range coupon currency item
                  (ItemPrice.Subtotal ip) (ItemPrice.Taxes ip)
                  (includeTaxesOf settings) Hs) as Hcoupon.
    destruct settings as [s|]; [|exact Hcoupon].
    exact (stacking_loop_range
             (fun d => memberDiscountApplies jwtClaims d item)
             (fun d =>
                calculateDiscount (ItemPrice.Subtotal ip) (ItemPrice.Taxes ip)
                  (MemberDiscount.Percentage d)
                  (MemberDiscount.FixedDiscount d currency)
                  (includeTaxesOf (Some s)))
             (Settings.MemberDiscounts s) _ Hcoupon). }
  split; [exact Hd|].
  rewrite Htotal. unfold U64.add, U64.sub. rewrite wrap_add_l. split.
  - intros Hle. apply wrap_small. lia.
  - intros Hgt. unfold U64.wrap.
    symmetry. apply (Z.mod_unique _ _ (-1)); [left|]; lia.
Qed.

Lemma item_total_cases_witness :
  ItemPrice.Total
    (@itemPriceOf exampleRuntime (Some twoFullDiscounts) (Some ∅) "US" "USD"
       None (plainItem 1000))
  = U64.modulus - (2000 - 1000 - 0).
Proof.
  destruct (@item_total_cases exampleRuntime (Some twoFullDiscounts) (Some ∅)
              "US" "USD" None (plainItem 1000) ltac:(cbn; lia)
              ltac:(vm_compute; reflexivity)) as (_ & _ & Hwrap).
  apply Hwrap. vm_compute. reflexivity.
Defined.
